(** * os_pipe: anonymous pipes and non-inheritable stdio handles

    A shallow embedding of [src/lib.rs] (the public functions [pipe],
    [parent_stdin], [parent_stdout], [parent_stderr], [stdio_from_file] and
    the [cfg]-selected [sys] module) over a small model of the operating
    system: one handle table per process, kernel pipe buffers, the data
    written to external streams, a script of injected syscall failures and a
    trace of the syscalls performed. *)

From Stdlib Require Import ZArith.
From stdpp Require Import base gmap list.

(* ------------------------------------------------------------------ *)
(** ** Data model *)

(** Kernel objects a handle can refer to. [Stream n] is an external file or
    terminal (what the process's standard streams are attached to). *)
Inductive Obj :=
  | PipeRead (p : nat)
  | PipeWrite (p : nat)
  | Stream (n : nat).

#[global] Instance Obj_eq_dec : EqDecision Obj.
Proof. solve_decision. Defined.

(** An entry of a handle table: the object and its inheritance flag
    ([e_inherit = false] is [O_CLOEXEC] / a non-inheritable HANDLE). *)
Record Entry := mkEntry { e_obj : Obj; e_inherit : bool }.

#[global] Instance Entry_eq_dec : EqDecision Entry.
Proof. solve_decision. Defined.

(** [io::Error] carrying the raw OS error code. *)
Record Error := mkError { os_code : Z }.

(** [io::Result]. *)
Inductive result (A : Type) :=
  | Ok (a : A)
  | Err (e : Error).
Arguments Ok {A} a.
Arguments Err {A} e.

(** [std::fs::File] and [std::process::Stdio]: owned handles. *)
Record File := mkFile { file_fd : nat }.
Record Stdio := mkStdio { stdio_fd : nat }.

(** [pub struct Pair { pub read: File, pub write: File }] *)
Record Pair := mkPair { read : File; write : File }.

(** The system calls the platform modules issue. *)
Inductive Syscall :=
  | SysPipe (inherit : bool)          (* pipe2 / CreatePipe *)
  | SysDup (h : nat) (inherit : bool) (* F_DUPFD_CLOEXEC / DuplicateHandle *)
  | SysClose (h : nat)                (* close / CloseHandle *)
  | SysGetStd (k : nat).              (* GetStdHandle *)

Definition EBADF : Z := 9.
Definition EPIPE : Z := 32.

(** The operating system as seen from the calling process. *)
Record OS := mkOS {
  os_handles : gmap nat Entry;          (* handle table of this process *)
  os_children : list (gmap nat Entry);  (* handle tables of live children *)
  os_pipes : gmap nat (list Byte.byte);      (* buffered bytes of each pipe *)
  os_streams : gmap nat (list Byte.byte);    (* bytes written to external streams *)
  os_next_pipe : nat;
  os_faults : list (option Z);          (* injected outcome of the next syscalls *)
  os_trace : list (Syscall * option Z)  (* syscalls performed, with their error *)
}.

Definition set_handles (t : gmap nat Entry) (s : OS) : OS :=
  mkOS t (os_children s) (os_pipes s) (os_streams s) (os_next_pipe s)
       (os_faults s) (os_trace s).
Definition set_children (cs : list (gmap nat Entry)) (s : OS) : OS :=
  mkOS (os_handles s) cs (os_pipes s) (os_streams s) (os_next_pipe s)
       (os_faults s) (os_trace s).
Definition set_pipes (ps : gmap nat (list Byte.byte)) (s : OS) : OS :=
  mkOS (os_handles s) (os_children s) ps (os_streams s) (os_next_pipe s)
       (os_faults s) (os_trace s).
Definition set_streams (ss : gmap nat (list Byte.byte)) (s : OS) : OS :=
  mkOS (os_handles s) (os_children s) (os_pipes s) ss (os_next_pipe s)
       (os_faults s) (os_trace s).
Definition set_next_pipe (n : nat) (s : OS) : OS :=
  mkOS (os_handles s) (os_children s) (os_pipes s) (os_streams s) n
       (os_faults s) (os_trace s).
Definition set_faults (fs : list (option Z)) (s : OS) : OS :=
  mkOS (os_handles s) (os_children s) (os_pipes s) (os_streams s)
       (os_next_pipe s) fs (os_trace s).
Definition log (c : Syscall) (r : option Z) (s : OS) : OS :=
  mkOS (os_handles s) (os_children s) (os_pipes s) (os_streams s)
       (os_next_pipe s) (os_faults s) (os_trace s ++ [(c, r)]).

(* ------------------------------------------------------------------ *)
(** ** A state monad over the OS *)

Definition M (A : Type) := OS -> A * OS.

Definition ret {A} (a : A) : M A := fun s => (a, s).
Definition bind {A B} (m : M A) (k : A -> M B) : M B :=
  fun s => let (a, s1) := m s in k a s1.

Notation "'let*' x ':=' m 'in' k" := (bind m (fun x => k))
  (at level 200, x name, m at level 100, k at level 200).

Definition err_of {A} (r : result A) : option Z :=
  match r with Ok _ => None | Err e => Some (os_code e) end.

(** The outcome the OS chooses for the next syscall. *)
Definition next_fault : M (option Z) := fun s =>
  match os_faults s with
  | [] => (None, s)
  | f :: fs => (f, set_faults fs s)
  end.

(** A fallible syscall: an injected failure has no effect; otherwise [body]
    runs. The outcome is appended to the trace. *)
Definition syscall {A} (c : Syscall) (body : M (result A)) : M (result A) :=
  fun s =>
    let (f, s1) := next_fault s in
    match f with
    | Some e => (Err (mkError e), log c (Some e) s1)
    | None => let (r, s2) := body s1 in (r, log c (err_of r) s2)
    end.

(** The handle the OS allocates: one not in the table. *)
Definition new_handle (t : gmap nat Entry) : nat := fresh (dom t).

Definition alloc (e : Entry) : M nat := fun s =>
  let h := new_handle (os_handles s) in
  (h, set_handles (<[h := e]> (os_handles s)) s).

(** Modelled from the spec: the kernel primitive creating a pipe, with both
    handles inheritable or not ([pipe2] with [O_CLOEXEC], [CreatePipe]). *)
Definition kpipe (inherit : bool) : M (result (nat * nat)) :=
  syscall (SysPipe inherit) (fun s =>
    let p := os_next_pipe s in
    let s1 := set_next_pipe (S p) (set_pipes (<[p := []]> (os_pipes s)) s) in
    let (r, s2) := alloc (mkEntry (PipeRead p) inherit) s1 in
    let (w, s3) := alloc (mkEntry (PipeWrite p) inherit) s2 in
    (Ok (r, w), s3)).

(** Modelled from the spec: duplicating a handle into a new one with the
    given inheritance flag. *)
Definition kdup (h : nat) (inherit : bool) : M (result nat) :=
  syscall (SysDup h inherit) (fun s =>
    match os_handles s !! h with
    | None => (Err (mkError EBADF), s)
    | Some e =>
        let (h', s1) := alloc (mkEntry (e_obj e) inherit) s in (Ok h', s1)
    end).

(** Modelled from the spec: retrieving the handle of standard stream [k]
    ([GetStdHandle]); it fails when the stream is closed. *)
Definition kget_std (k : nat) : M (result nat) :=
  syscall (SysGetStd k) (fun s =>
    match os_handles s !! k with
    | None => (Err (mkError EBADF), s)
    | Some _ => (Ok k, s)
    end).

(** Closing a handle. As [close(2)] does, the handle is released even when
    an error is reported. *)
Definition kclose (h : nat) : M (option Z) := fun s =>
  let (f, s1) := next_fault s in
  let r := match os_handles s1 !! h with
           | None => Some EBADF
           | Some _ => f
           end in
  (r, log (SysClose h) r (set_handles (delete h (os_handles s1)) s1)).

(* ------------------------------------------------------------------ *)
(** ** Byte-stream I/O on handles *)

(** Whether some handle of the process or of a live child refers to [o]. *)
Definition table_refs (t : gmap nat Entry) (o : Obj) : bool :=
  existsb (fun he : nat * Entry => bool_decide (e_obj he.2 = o)) (map_to_list t).

Definition held (s : OS) (o : Obj) : bool :=
  table_refs (os_handles s) o || existsb (fun c => table_refs c o) (os_children s).

(** [write(2)]: the whole buffer is appended to the pipe or the stream;
    writing to a pipe nobody can read fails with [EPIPE]. *)
Definition kwrite (h : nat) (data : list Byte.byte) : M (result nat) := fun s =>
  match os_handles s !! h with
  | Some (mkEntry (PipeWrite p) _) =>
      if held s (PipeRead p) then
        let buf := default [] (os_pipes s !! p) in
        (Ok (length data), set_pipes (<[p := buf ++ data]> (os_pipes s)) s)
      else (Err (mkError EPIPE), s)
  | Some (mkEntry (Stream n) _) =>
      let out := default [] (os_streams s !! n) in
      (Ok (length data), set_streams (<[n := out ++ data]> (os_streams s)) s)
  | _ => (Err (mkError EBADF), s)
  end.

(** Outcome of a read: it blocks, or it completes. *)
Inductive ReadOutcome :=
  | Blocked
  | Done (r : result (list Byte.byte)).

(** [read(2)] on a pipe: up to [n] buffered bytes; on an empty buffer it
    blocks while a write handle is open anywhere and reports end-of-stream
    (no bytes) otherwise. Reading external streams is not modelled. *)
Definition kread (h n : nat) : M ReadOutcome := fun s =>
  match os_handles s !! h with
  | Some (mkEntry (PipeRead p) _) =>
      let buf := default [] (os_pipes s !! p) in
      match buf with
      | [] => if held s (PipeWrite p) then (Blocked, s) else (Done (Ok []), s)
      | _ :: _ => (Done (Ok (take n buf)), set_pipes (<[p := drop n buf]> (os_pipes s)) s)
      end
  | _ => (Done (Err (mkError EBADF)), s)
  end.

(** [Read::read_to_end] with chunks of [n] bytes, within [fuel] reads
    ([None] when the fuel runs out). *)
Fixpoint read_to_end (h n fuel : nat) : M (option ReadOutcome) :=
  match fuel with
  | 0 => ret None
  | S f =>
      let* o := kread h n in
      match o with
      | Done (Ok []) => ret (Some (Done (Ok [])))
      | Done (Ok l) =>
          let* rest := read_to_end h n f in
          ret (match rest with
               | Some (Done (Ok l')) => Some (Done (Ok (l ++ l')))
               | other => other
               end)
      | other => ret (Some other)
      end
  end.

(* ------------------------------------------------------------------ *)
(** ** The platform modules ([sys]) *)

(** The interface both [unix.rs] and [windows.rs] provide to [lib.rs]. *)
Record SysModule := mkSys {
  sys_pipe : M (result Pair);
  sys_parent_stdin : M (result Stdio);
  sys_parent_stdout : M (result Stdio);
  sys_parent_stderr : M (result Stdio);
  sys_stdio_from_file : File -> Stdio
}.

Definition stdio_result (r : result nat) : result Stdio :=
  match r with Ok h => Ok (mkStdio h) | Err e => Err e end.

(** Modelled from the spec: [unix.rs] (missing from the sources), the
    atomic strategy. The pipe is created non-inheritable in one call and the
    standard streams are duplicated non-inheritable in one call. *)
Module Unix.

Definition pipe : M (result Pair) :=
  let* r := kpipe false in
  match r with
  | Ok (rd, wr) => ret (Ok (mkPair (mkFile rd) (mkFile wr)))
  | Err e => ret (Err e)
  end.

Definition parent_std (k : nat) : M (result Stdio) :=
  let* r := kdup k false in ret (stdio_result r).

Definition parent_stdin := parent_std 0.
Definition parent_stdout := parent_std 1.
Definition parent_stderr := parent_std 2.

(** Ownership transfer: [Stdio::from_raw_fd(file.into_raw_fd())]. *)
Definition stdio_from_file (file : File) : Stdio := mkStdio (file_fd file).

Definition sys : SysModule :=
  mkSys pipe parent_stdin parent_stdout parent_stderr stdio_from_file.

End Unix.

(** Modelled from the spec: [windows.rs] (missing from the sources), the
    duplicate-then-close strategy. The pipe is created inheritable, each
    endpoint is duplicated into a non-inheritable handle and the originals
    are closed. On a failure every handle created so far is closed, ignoring
    errors of these cleanup closes, and the original error is returned. A
    failed close of an original is an OS failure of the call and is
    reported the same way. *)
Module Windows.

Definition pipe : M (result Pair) :=
  let* c := kpipe true in
  match c with
  | Err e => ret (Err e)
  | Ok (r0, w0) =>
      let* d1 := kdup r0 false in
      match d1 with
      | Err e =>
          let* _ := kclose r0 in let* _ := kclose w0 in ret (Err e)
      | Ok r1 =>
          let* d2 := kdup w0 false in
          match d2 with
          | Err e =>
              let* _ := kclose r1 in let* _ := kclose r0 in
              let* _ := kclose w0 in ret (Err e)
          | Ok w1 =>
              let* c1 := kclose r0 in
              let* c2 := kclose w0 in
              match c1, c2 with
              | None, None => ret (Ok (mkPair (mkFile r1) (mkFile w1)))
              | Some e, _ | None, Some e =>
                  let* _ := kclose r1 in let* _ := kclose w1 in
                  ret (Err (mkError e))
              end
          end
      end
  end.

Definition parent_std (k : nat) : M (result Stdio) :=
  let* g := kget_std k in
  match g with
  | Err e => ret (Err e)
  | Ok h => let* d := kdup h false in ret (stdio_result d)
  end.

Definition parent_stdin := parent_std 0.
Definition parent_stdout := parent_std 1.
Definition parent_stderr := parent_std 2.

(** Ownership transfer: [Stdio::from_raw_handle(file.into_raw_handle())]. *)
Definition stdio_from_file (file : File) : Stdio := mkStdio (file_fd file).

Definition sys : SysModule :=
  mkSys pipe parent_stdin parent_stdout parent_stderr stdio_from_file.

End Windows.

(* ------------------------------------------------------------------ *)
(** ** [lib.rs] *)

(** The build target, as far as [cfg(windows)] sees it. *)
Record Target := mkTarget { target_windows : bool }.

Definition cfg_windows (t : Target) : bool := target_windows t.
Definition cfg_not_windows (t : Target) : bool := negb (cfg_windows t).

(** The platform modules compiled for target [t]:
    [#[cfg(not(windows))] #[path = "unix.rs"] mod sys;] and
    [#[cfg(windows)] #[path = "windows.rs"] mod sys;]. *)
Definition compiled_sys (t : Target) : list SysModule :=
  (if cfg_not_windows t then [Unix.sys] else []) ++
  (if cfg_windows t then [Windows.sys] else []).

Definition sys (t : Target) : SysModule :=
  if cfg_windows t then Windows.sys else Unix.sys.

Definition pipe (t : Target) : M (result Pair) := sys_pipe (sys t).
Definition parent_stdin (t : Target) : M (result Stdio) := sys_parent_stdin (sys t).
Definition parent_stdout (t : Target) : M (result Stdio) := sys_parent_stdout (sys t).
Definition parent_stderr (t : Target) : M (result Stdio) := sys_parent_stderr (sys t).
Definition stdio_from_file (t : Target) (file : File) : Stdio :=
  sys_stdio_from_file (sys t) file.

(* ------------------------------------------------------------------ *)
(** ** Dropping owned handles, spawning children *)

(** [impl Drop for File] / [Stdio]: close the handle, ignoring errors. *)
Definition drop_file (f : File) : M unit := let* _ := kclose (file_fd f) in ret tt.
Definition drop_stdio (st : Stdio) : M unit := let* _ := kclose (stdio_fd st) in ret tt.

Fixpoint close_all (hs : list nat) : M unit :=
  match hs with
  | [] => ret tt
  | h :: rest => let* _ := kclose h in close_all rest
  end.

(** The objects the redirections of a spawn refer to. *)
Fixpoint resolve (t : gmap nat Entry) (rds : list (nat * Stdio)) : option (list (nat * Obj)) :=
  match rds with
  | [] => Some []
  | (k, st) :: rest =>
      match t !! stdio_fd st, resolve t rest with
      | Some e, Some l => Some ((k, e_obj e) :: l)
      | _, _ => None
      end
  end.

(** The handle table of a child: fork copies the table, each redirection
    [dup2]s its object onto its slot (clearing the close-on-exec flag) and
    exec keeps only the inheritable handles. *)
Definition child_table (t : gmap nat Entry) (objs : list (nat * Obj)) : gmap nat Entry :=
  filter (fun he : nat * Entry => e_inherit he.2 = true)
    (foldl (fun acc (ko : nat * Obj) => <[ko.1 := mkEntry ko.2 true]> acc) t objs).

(** [Command::spawn] with the given stdio redirections ([slot, Stdio]);
    the [Command] then drops its [Stdio] values. The result is the index of
    the child. *)
Definition spawn (rds : list (nat * Stdio)) : M (result nat) := fun s =>
  let (res, s1) :=
    match resolve (os_handles s) rds with
    | None => (Err (mkError EBADF), s)
    | Some objs =>
        (Ok (length (os_children s)),
         set_children (os_children s ++ [child_table (os_handles s) objs]) s)
    end in
  let (_, s2) := close_all (map (fun ks : nat * Stdio => stdio_fd ks.2) rds) s1 in
  (res, s2).

(** Operations a client performs on handles after acquiring them. *)
Inductive Op :=
  | OpWrite (h : nat) (data : list Byte.byte)
  | OpRead (h n : nat)
  | OpClose (h : nat)
  | OpDup (h : nat)                     (* File::try_clone *)
  | OpSpawn (rds : list (nat * Stdio))
  | OpExit (i : nat).                   (* child [i] exits *)

Definition step (o : Op) : M unit :=
  match o with
  | OpWrite h d => let* _ := kwrite h d in ret tt
  | OpRead h n => let* _ := kread h n in ret tt
  | OpClose h => let* _ := kclose h in ret tt
  | OpDup h => let* _ := kdup h false in ret tt
  | OpSpawn rds => let* _ := spawn rds in ret tt
  | OpExit i => fun s => (tt, set_children (<[i := ∅]> (os_children s)) s)
  end.

Fixpoint run (ops : list Op) : M unit :=
  match ops with
  | [] => ret tt
  | o :: rest => let* _ := step o in run rest
  end.

(* ------------------------------------------------------------------ *)
(** ** Well-formed states and syscall traces *)

(** Every handle refers to a pipe already created. *)
Definition entry_below (n : nat) (e : Entry) : bool :=
  match e_obj e with
  | PipeRead p | PipeWrite p => p <? n
  | Stream _ => true
  end.

Definition table_wf (n : nat) (t : gmap nat Entry) : bool :=
  forallb (fun he : nat * Entry => entry_below n he.2) (map_to_list t).

Definition wf (s : OS) : bool :=
  table_wf (os_next_pipe s) (os_handles s) &&
  forallb (table_wf (os_next_pipe s)) (os_children s).

(** The error of the first syscall of a trace that failed. *)
Fixpoint first_failure (tr : list (Syscall * option Z)) : option Z :=
  match tr with
  | [] => None
  | (_, Some e) :: _ => Some e
  | (_, None) :: rest => first_failure rest
  end.

Definition is_close (c : Syscall) : bool :=
  match c with SysClose _ => true | _ => false end.

(** After the first failed syscall only handles are closed: nothing is
    retried and nothing else is acquired. *)
Fixpoint only_closes_after_failure (tr : list (Syscall * option Z)) : bool :=
  match tr with
  | [] => true
  | (_, Some _) :: rest => forallb (fun ce : Syscall * option Z => is_close ce.1) rest
  | (_, None) :: rest => only_closes_after_failure rest
  end.

(** A process whose three standard streams are open and inheritable. *)
Definition std_table : gmap nat Entry :=
  {[0 := mkEntry (Stream 0) true; 1 := mkEntry (Stream 1) true;
    2 := mkEntry (Stream 2) true]}.

Definition os0 (faults : list (option Z)) : OS := mkOS std_table [] ∅ ∅ 0 faults [].

(** The parts of the state a handle-management syscall leaves alone. *)
Definition frame (s s' : OS) : Prop :=
  os_children s' = os_children s /\ os_streams s' = os_streams s.

(* ------------------------------------------------------------------ *)
(** ** Postconditions of the platform strategies *)

Ltac solve_map :=
  apply map_eq; intro;
  rewrite ?lookup_delete, ?lookup_insert;
  repeat case_decide; subst; (congruence || auto).

(** The trace a call appends, with the error it returns being the first
    failure and nothing but closes after it. *)
Definition reports (s : OS) (err : option Z) (s' : OS) : Prop :=
  exists tr, os_trace s' = os_trace s ++ tr /\ err = first_failure tr /\
             only_closes_after_failure tr = true.

(** The postcondition both pipe strategies meet. *)
Definition pipe_post (s : OS) (r : result Pair) (s' : OS) : Prop :=
  frame s s' /\ reports s (err_of r) s' /\
  match r with
  | Ok pr =>
      let p := os_next_pipe s in
      let rd := file_fd (read pr) in
      let wr := file_fd (write pr) in
      os_handles s !! rd = None /\ os_handles s !! wr = None /\ rd <> wr /\
      os_handles s' = <[wr := mkEntry (PipeWrite p) false]>
                        (<[rd := mkEntry (PipeRead p) false]> (os_handles s)) /\
      os_pipes s' = <[p := []]> (os_pipes s) /\ os_next_pipe s' = S p
  | Err _ => os_handles s' = os_handles s
  end.

(** The postcondition both strategies meet for the standard stream [k]. *)
Definition std_post (k : nat) (s : OS) (r : result Stdio) (s' : OS) : Prop :=
  frame s s' /\ os_pipes s' = os_pipes s /\ os_next_pipe s' = os_next_pipe s /\
  reports s (err_of r) s' /\
  match r with
  | Ok st => exists e, os_handles s !! k = Some e /\ os_handles s !! stdio_fd st = None /\
      os_handles s' = <[stdio_fd st := mkEntry (e_obj e) false]> (os_handles s)
  | Err _ => os_handles s' = os_handles s
  end.

(* ------------------------------------------------------------------ *)
(** ** Inheritance *)

(** The object a redirection list finally puts on slot [j] (the last
    redirection of [j] wins). *)
Fixpoint assigned (objs : list (nat * Obj)) (j : nat) : option Obj :=
  match objs with
  | [] => None
  | (k, o) :: rest =>
      match assigned rest j with
      | Some o' => Some o'
      | None => if Nat.eq_dec k j then Some o else None
      end
  end.

(** No inheritable handle of [t] refers to [o]. *)
Definition noinh (t : gmap nat Entry) (o : Obj) : Prop :=
  forall h e, t !! h = Some e -> e_obj e = o -> e_inherit e = false.

(** Only non-inheritable entries appear in the parent's table. *)
Definition only_noninh_added (t t' : gmap nat Entry) : Prop :=
  forall h e, t' !! h = Some e -> t !! h = Some e \/ e_inherit e = false.

(** A client that writes chunks to a pipe and reads from it, in any
    interleaving; a read that would block does nothing (the reader waits). *)
Inductive Act :=
  | Wr (data : list Byte.byte)
  | Rd (n : nat).

Fixpoint transfer (r w : nat) (acts : list Act) : M (list Byte.byte) :=
  match acts with
  | [] => ret []
  | Wr d :: rest => let* _ := kwrite w d in transfer r w rest
  | Rd n :: rest =>
      let* o := kread r n in
      let* got := transfer r w rest in
      ret (match o with Done (Ok l) => l ++ got | _ => got end)
  end.

Fixpoint written (acts : list Act) : list Byte.byte :=
  match acts with
  | [] => []
  | Wr d :: rest => d ++ written rest
  | Rd _ :: rest => written rest
  end.

(** The five public operations of the crate, with their types. *)
Record PublicApi := mkApi {
  api_pipe : M (result Pair);
  api_parent_stdin : M (result Stdio);
  api_parent_stdout : M (result Stdio);
  api_parent_stderr : M (result Stdio);
  api_stdio_from_file : File -> Stdio
}.

Definition lib_api (t : Target) : PublicApi :=
  mkApi (pipe t) (parent_stdin t) (parent_stdout t) (parent_stderr t) (stdio_from_file t).

(** [parent_stdin], [parent_stdout], [parent_stderr] by stream number. *)
Definition parent_stream (t : Target) (k : nat) : M (result Stdio) :=
  match k with
  | 0 => parent_stdin t
  | 1 => parent_stdout t
  | _ => parent_stderr t
  end.

(** The buffers of the pipes created before [s] are those of [s'], and
    no pipe number is reused. *)
Definition pipes_kept (s s' : OS) : Prop :=
  (forall q, q < os_next_pipe s -> os_pipes s' !! q = os_pipes s !! q) /\
  os_next_pipe s <= os_next_pipe s'.

(** The contract the spec gives [create-pipe-pair]: on success two new,
    distinct, non-inheritable handles to the read and write sides of the
    pipe just created, which is empty, with nothing else changed; on
    failure the handle table and the existing pipes are as before; the
    error is the OS's, unmodified. *)
Definition pipe_contract (m : M (result Pair)) : Prop :=
  forall s r s', m s = (r, s') -> pipe_post s r s' /\ pipes_kept s s'.

(** The contract the spec gives [wrap-parent-*] for stream [k]: a new
    non-inheritable duplicate of the stream's handle, nothing else changed. *)
Definition stdio_contract (k : nat) (m : M (result Stdio)) : Prop :=
  forall s r s', m s = (r, s') -> std_post k s r s'.

(* ------------------------------------------------------------------ *)
(** ** Ownership of handles by program values *)

(** The values of a program that own a handle. Passing one by value moves
    it out of its owner; dropping one closes its handle. *)
Inductive Value :=
  | VFile (f : File)
  | VStdio (st : Stdio).

Definition value_fd (v : Value) : nat :=
  match v with VFile f => file_fd f | VStdio st => stdio_fd st end.

Definition drop_value (v : Value) : M unit :=
  match v with VFile f => drop_file f | VStdio st => drop_stdio st end.

(** [stdio_from_file(file)] applied to the owned value [i]: the [File] is
    moved into the call and the returned [Stdio] is owned instead. Only an
    owned [File] can be passed: anything else does not type-check, and a
    moved [File] is no longer owned. *)
Definition call_stdio_from_file (t : Target) (i : nat) (vs : list Value) : option (list Value) :=
  match vs !! i with
  | Some (VFile f) => Some (delete i vs ++ [VStdio (stdio_from_file t f)])
  | _ => None
  end.

(** Dropping the owned value [i], then a sequence of them. *)
Definition drop_owned (i : nat) (vs : list Value) : M (option (list Value)) :=
  match vs !! i with
  | Some v => let* _ := drop_value v in ret (Some (delete i vs))
  | None => ret None
  end.

Fixpoint drop_seq (is : list nat) (vs : list Value) : M (option (list Value)) :=
  match is with
  | [] => ret (Some vs)
  | i :: rest =>
      let* o := drop_owned i vs in
      match o with
      | Some vs' => drop_seq rest vs'
      | None => ret None
      end
  end.

(** How many owned values own handle [h]. *)
Definition owners (h : nat) (vs : list Value) : nat :=
  length (filter (fun v => value_fd v = h) vs).

(** How many times a trace closes handle [h]. *)
Fixpoint closes (h : nat) (tr : list (Syscall * option Z)) : nat :=
  match tr with
  | [] => 0
  | (SysClose h', _) :: rest => (if Nat.eq_dec h' h then 1 else 0) + closes h rest
  | _ :: rest => closes h rest
  end.

(* ------------------------------------------------------------------ *)
(** ** Children given an object *)

(** Whether a redirection of [rds] puts [o] on a slot of the child. *)
Definition names_obj (t : gmap nat Entry) (o : Obj) (rds : list (nat * Stdio)) : bool :=
  existsb (fun ks : nat * Stdio =>
             match t !! stdio_fd ks.2 with
             | Some e => bool_decide (e_obj e = o)
             | None => false
             end) rds.

(** The children a run spawns with a redirection onto [o]: the only ones
    that can inherit a duplicate of [o]. *)
Definition given_step (o : Obj) (op : Op) (s : OS) : list nat :=
  match op with
  | OpSpawn rds => if names_obj (os_handles s) o rds then [length (os_children s)] else []
  | _ => []
  end.

Fixpoint given (o : Obj) (ops : list Op) (s : OS) : list nat :=
  match ops with
  | [] => []
  | op :: rest => given_step o op s ++ given o rest (snd (step op s))
  end.

(** Child [j] has exited: it holds no handle. *)
Definition exited (s : OS) (j : nat) : Prop := os_children s !! j = Some ∅.

(* ------------------------------------------------------------------ *)
(** ** Concrete runs *)

Definition unix_target : Target := mkTarget false.
Definition windows_target : Target := mkTarget true.

(** After [pipe] on Unix (handles 3 and 4): duplicate the read end (5)
    and hand the duplicate to a child's stdin; then spawn a second child
    whose stdin is the read end itself. *)
Definition inherit_ops : list Op := [OpDup 3; OpSpawn [(0, mkStdio 5)]].
Definition inherit_rds : list (nat * Stdio) := [(0, mkStdio 3)].

(** After [parent_stderr] on Unix (handle 3): duplicate it (4), then spawn
    a child whose stdout is that duplicate. *)
Definition std_dup_ops : list Op := [OpDup 3].
Definition std_dup_rds : list (nat * Stdio) := [(1, mkStdio 4)].

Definition fifo_acts : list Act :=
  [Wr [Byte.x68; Byte.x65]; Rd 1; Rd 4; Wr [Byte.x79]; Rd 2; Wr [Byte.x21]].

(** The write end is duplicated (5), the duplicate becomes a child's
    stdout, the parent closes its write end and the child exits. *)
Definition eof_ops : list Op :=
  [OpWrite 4 [Byte.x68; Byte.x69]; OpDup 4; OpSpawn [(1, mkStdio 5)]; OpClose 4; OpExit 0].


(* ------------------------------------------------------------------ *)
(** ** The [test_pipes_are_not_inheritable] test of [lib.rs] *)

(** Up to the spawn: two pipes, the input pipe's read end as the child's
    stdin and the output pipe's write end as its stdout. [unwrap] failures
    are the [Err] results. *)
Definition inherit_test_setup (t : Target) : M (result (Pair * Pair * nat)) :=
  let* ip := pipe t in
  match ip with
  | Err e => ret (Err e)
  | Ok input_pipe =>
      let* op := pipe t in
      match op with
      | Err e => ret (Err e)
      | Ok output_pipe =>
          let child_stdin := stdio_from_file t (read input_pipe) in
          let child_stdout := stdio_from_file t (write output_pipe) in
          let* c := spawn [(0, child_stdin); (1, child_stdout)] in
          match c with
          | Err e => ret (Err e)
          | Ok child => ret (Ok (input_pipe, output_pipe, child))
          end
      end
  end.

(** Then: [input_pipe.write.write_all(data)] and [drop(input_pipe.write)]. *)
Definition inherit_test_feed (input_pipe : Pair) (data : list Byte.byte) : M (result unit) :=
  let* w := kwrite (file_fd (write input_pipe)) data in
  match w with
  | Err e => ret (Err e)
  | Ok _ => let* _ := drop_file (write input_pipe) in ret (Ok tt)
  end.

(** The payload of [test_pipes_are_not_inheritable], [b"hello"]. *)
Definition hello : list Byte.byte := [Byte.x68; Byte.x65; Byte.x6c; Byte.x6c; Byte.x6f].

(* ------------------------------------------------------------------ *)
(** ** The [test_parent_handles] test of [lib.rs] *)

(** Up to the spawn of [swap]: the input pipe's read end becomes the
    child's stdin, [data] is written and the write end dropped before the
    spawn. The stdout and stderr pipes [Command::output] creates are the
    standard library's own and do not touch this pipe. *)
Definition parent_handles_test (t : Target) (data : list Byte.byte) : M (result nat) :=
  let* ip := pipe t in
  match ip with
  | Err e => ret (Err e)
  | Ok input_pipe =>
      let child_stdin := stdio_from_file t (read input_pipe) in
      let* w := kwrite (file_fd (write input_pipe)) data in
      match w with
      | Err e => ret (Err e)
      | Ok _ =>
          let* _ := drop_file (write input_pipe) in
          spawn [(0, child_stdin)]
      end
  end.

(** The payload of [test_parent_handles], [b"quack"]. *)
Definition quack : list Byte.byte := [Byte.x71; Byte.x75; Byte.x61; Byte.x63; Byte.x6b].

(* ------------------------------------------------------------------ *)
(** * Proofs *)

Lemma frame_refl s : frame s s.
Proof. split; reflexivity. Qed.

Lemma frame_trans s1 s2 s3 : frame s1 s2 -> frame s2 s3 -> frame s1 s3.
Proof. intros [A B] [C D]. split; congruence. Qed.


(* ------------------------------------------------------------------ *)
(** ** Specifications of the syscalls *)

Lemma next_fault_spec s f s1 :
  next_fault s = (f, s1) ->
  os_handles s1 = os_handles s /\ os_pipes s1 = os_pipes s /\
  os_next_pipe s1 = os_next_pipe s /\ os_trace s1 = os_trace s /\ frame s s1.
Proof.
  unfold next_fault, frame. destruct (os_faults s); intros [= <- <-]; simpl; auto 10.
Qed.

Lemma new_handle_fresh (t : gmap nat Entry) : t !! new_handle t = None.
Proof. unfold new_handle. apply not_elem_of_dom. exact (is_fresh (dom t)). Qed.

Lemma kpipe_spec inh s r s' :
  kpipe inh s = (r, s') ->
  frame s s' /\
  match r with
  | Ok (rd, wr) =>
      let p := os_next_pipe s in
      os_handles s !! rd = None /\ os_handles s !! wr = None /\ rd <> wr /\
      os_handles s' = <[wr := mkEntry (PipeWrite p) inh]>
                        (<[rd := mkEntry (PipeRead p) inh]> (os_handles s)) /\
      os_pipes s' = <[p := []]> (os_pipes s) /\ os_next_pipe s' = S p /\
      os_trace s' = os_trace s ++ [(SysPipe inh, None)]
  | Err e =>
      os_handles s' = os_handles s /\ os_pipes s' = os_pipes s /\
      os_next_pipe s' = os_next_pipe s /\
      os_trace s' = os_trace s ++ [(SysPipe inh, Some (os_code e))]
  end.
Proof.
  unfold kpipe, syscall.
  destruct (next_fault s) as [[e|] s1] eqn:F;
    apply next_fault_spec in F as (Hh & Hp & Hn & Ht & [Hc Hs]).
  - intros [= <- <-]. unfold frame; simpl. rewrite Hh, Hp, Hn, Ht. auto 10.
  - intros [= <- <-]. unfold frame; simpl. rewrite Hh, Hp, Hn, Ht, Hc, Hs.
    set (t := os_handles s). set (rd := new_handle t).
    set (wr := new_handle (<[rd := mkEntry (PipeRead (os_next_pipe s)) inh]> t)).
    pose proof (new_handle_fresh t) as Frd.
    pose proof (new_handle_fresh (<[rd := mkEntry (PipeRead (os_next_pipe s)) inh]> t)) as Fwr.
    fold wr in Fwr. fold rd in Frd.
    assert (rd <> wr) as Hne.
    { intros E. rewrite <- E, lookup_insert_eq in Fwr. discriminate. }
    rewrite lookup_insert_ne in Fwr by congruence.
    repeat split; auto.
Qed.

Lemma kdup_spec h inh s r s' :
  kdup h inh s = (r, s') ->
  frame s s' /\ os_pipes s' = os_pipes s /\ os_next_pipe s' = os_next_pipe s /\
  os_trace s' = os_trace s ++ [(SysDup h inh, err_of r)] /\
  match r with
  | Ok h' => exists e, os_handles s !! h = Some e /\ os_handles s !! h' = None /\
      os_handles s' = <[h' := mkEntry (e_obj e) inh]> (os_handles s)
  | Err _ => os_handles s' = os_handles s
  end.
Proof.
  unfold kdup, syscall.
  destruct (next_fault s) as [[e|] s1] eqn:F;
    apply next_fault_spec in F as (Hh & Hp & Hn & Ht & [Hc Hs]).
  - intros [= <- <-]. unfold frame; simpl. rewrite Hh, Hp, Hn, Ht. auto 10.
  - rewrite Hh. destruct (os_handles s !! h) as [e|] eqn:L.
    + intros [= <- <-]. unfold frame; simpl. rewrite Hh, Hp, Hn, Ht, Hc, Hs.
      repeat split; auto. exists e. repeat split; auto. apply new_handle_fresh.
    + intros [= <- <-]. unfold frame; simpl. rewrite Hh, Hp, Hn, Ht. auto 10.
Qed.

Lemma kget_std_spec k s r s' :
  kget_std k s = (r, s') ->
  frame s s' /\ os_pipes s' = os_pipes s /\ os_next_pipe s' = os_next_pipe s /\
  os_handles s' = os_handles s /\
  os_trace s' = os_trace s ++ [(SysGetStd k, err_of r)] /\
  match r with
  | Ok h => h = k /\ is_Some (os_handles s !! k)
  | Err _ => True
  end.
Proof.
  unfold kget_std, syscall.
  destruct (next_fault s) as [[e|] s1] eqn:F;
    apply next_fault_spec in F as (Hh & Hp & Hn & Ht & [Hc Hs]).
  - intros [= <- <-]. unfold frame; simpl. rewrite Hh, Hp, Hn, Ht. auto 10.
  - rewrite Hh. destruct (os_handles s !! k) as [e|] eqn:L;
      intros [= <- <-]; unfold frame; simpl; rewrite Hh, Hp, Hn, Ht; eauto 10.
Qed.

Lemma kclose_spec h s r s' :
  kclose h s = (r, s') ->
  frame s s' /\ os_pipes s' = os_pipes s /\ os_next_pipe s' = os_next_pipe s /\
  os_handles s' = delete h (os_handles s) /\
  os_trace s' = os_trace s ++ [(SysClose h, r)].
Proof.
  unfold kclose.
  destruct (next_fault s) as [f s1] eqn:F;
    apply next_fault_spec in F as (Hh & Hp & Hn & Ht & [Hc Hs]).
  intros [= <- <-]. unfold frame; simpl. rewrite Hh, Hp, Hn, Ht, Hc, Hs. auto 10.
Qed.


(* ------------------------------------------------------------------ *)
(** ** Both strategies, syscall by syscall *)

Lemma unix_pipe_post s r s' : Unix.pipe s = (r, s') -> pipe_post s r s'.
Proof.
  unfold Unix.pipe, bind.
  destruct (kpipe false s) as [c s1] eqn:E1. apply kpipe_spec in E1 as [F1 E1].
  destruct c as [[r0 w0]|e]; unfold ret; intros [= <- <-].
  - destruct E1 as (Nr & Nw & D & H1 & P1 & N1 & T1).
    split; [done|]. split; [|simpl; auto 10].
    exists [(SysPipe false, None)]. auto.
  - destruct E1 as (H1 & P1 & N1 & T1).
    split; [done|]. split; [|done].
    exists [(SysPipe false, Some (os_code e))]. auto.
Qed.

Lemma windows_pipe_post s r s' : Windows.pipe s = (r, s') -> pipe_post s r s'.
Proof.
  unfold Windows.pipe, bind.
  destruct (kpipe true s) as [c s1] eqn:E1. apply kpipe_spec in E1 as [F1 E1].
  destruct c as [[r0 w0]|e].
  2:{ destruct E1 as (H1 & P1 & N1 & T1). unfold ret. intros [= <- <-].
      split; [done|]. split; [|done].
      exists [(SysPipe true, Some (os_code e))]. auto. }
  destruct E1 as (Nr0 & Nw0 & D0 & H1 & P1 & N1 & T1).
  destruct (kdup r0 false s1) as [d1 s2] eqn:E2.
  apply kdup_spec in E2 as (F2 & P2 & N2 & T2 & E2).
  destruct d1 as [r1|e].
  2:{ destruct (kclose r0 s2) as [x3 s3] eqn:E3.
      apply kclose_spec in E3 as (F3 & P3 & N3 & H3 & T3).
      destruct (kclose w0 s3) as [x4 s4] eqn:E4.
      apply kclose_spec in E4 as (F4 & P4 & N4 & H4 & T4).
      unfold ret. intros [= <- <-].
      split; [eauto using frame_trans|]. split.
      - unfold reports; rewrite T4, T3, T2, T1, <- !app_assoc. eexists; split; [reflexivity|]. auto.
      - rewrite H4, H3, E2, H1. solve_map. }
  destruct E2 as (er0 & Lr0 & Nr1 & H2).
  rewrite H1 in Lr0, Nr1. apply lookup_insert_None in Nr1 as [Nr1 Dr1w0].
  apply lookup_insert_None in Nr1 as [Nr1 Dr1r0].
  destruct (kdup w0 false s2) as [d2 s3] eqn:E3.
  apply kdup_spec in E3 as (F3 & P3 & N3 & T3 & E3).
  destruct d2 as [w1|e].
  2:{ destruct (kclose r1 s3) as [x4 s4] eqn:E4.
      apply kclose_spec in E4 as (F4 & P4 & N4 & H4 & T4).
      destruct (kclose r0 s4) as [x5 s5] eqn:E5.
      apply kclose_spec in E5 as (F5 & P5 & N5 & H5 & T5).
      destruct (kclose w0 s5) as [x6 s6] eqn:E6.
      apply kclose_spec in E6 as (F6 & P6 & N6 & H6 & T6).
      unfold ret. intros [= <- <-].
      split; [eauto 10 using frame_trans|]. split.
      - unfold reports; rewrite T6, T5, T4, T3, T2, T1, <- !app_assoc. eexists; split; [reflexivity|]. auto.
      - rewrite H6, H5, H4, E3, H2, H1. solve_map. }
  destruct E3 as (ew0 & Lw0 & Nw1 & H3).
  rewrite H2, H1 in Lw0. rewrite H2, H1 in Nw1.
  apply lookup_insert_None in Nw1 as [Nw1 Dw1r1].
  apply lookup_insert_None in Nw1 as [Nw1 Dw1w0].
  apply lookup_insert_None in Nw1 as [Nw1 Dw1r0].
  rewrite lookup_insert_ne, lookup_insert_eq in Lr0 by congruence.
  rewrite lookup_insert_ne, lookup_insert_eq in Lw0 by congruence.
  injection Lr0 as <-. injection Lw0 as <-.
  destruct (kclose r0 s3) as [c1 s4] eqn:E4.
  apply kclose_spec in E4 as (F4 & P4 & N4 & H4 & T4).
  destruct (kclose w0 s4) as [c2 s5] eqn:E5.
  apply kclose_spec in E5 as (F5 & P5 & N5 & H5 & T5).
  assert (frame s s5) by eauto 10 using frame_trans.
  destruct c1 as [e1|], c2 as [e2|].
  1-3: destruct (kclose r1 s5) as [x6 s6] eqn:E6;
       apply kclose_spec in E6 as (F6 & P6 & N6 & H6 & T6);
       destruct (kclose w1 s6) as [x7 s7] eqn:E7;
       apply kclose_spec in E7 as (F7 & P7 & N7 & H7 & T7);
       unfold ret; intros [= <- <-];
       (split; [eauto 10 using frame_trans|]); split;
       [ unfold reports; rewrite T7, T6, T5, T4, T3, T2, T1, <- !app_assoc;
         eexists; split; [reflexivity|]; auto
       | rewrite H7, H6, H5, H4, H3, H2, H1; solve_map ].
  unfold ret. intros [= <- <-].
  split; [done|]. split.
  - unfold reports; rewrite T5, T4, T3, T2, T1, <- !app_assoc. eexists; split; [reflexivity|]. auto.
  - simpl. repeat split; try congruence.
    rewrite H5, H4, H3, H2, H1. solve_map.
Qed.

Lemma unix_parent_std_post k s r s' : Unix.parent_std k s = (r, s') -> std_post k s r s'.
Proof.
  unfold Unix.parent_std, bind.
  destruct (kdup k false s) as [d s1] eqn:E1.
  apply kdup_spec in E1 as (F1 & P1 & N1 & T1 & E1).
  unfold ret. intros [= <- <-].
  do 3 (split; [done|]). split.
  - exists [(SysDup k false, err_of d)]. destruct d; simpl; auto.
  - destruct d; simpl; auto.
Qed.

Lemma windows_parent_std_post k s r s' : Windows.parent_std k s = (r, s') -> std_post k s r s'.
Proof.
  unfold Windows.parent_std, bind.
  destruct (kget_std k s) as [g s1] eqn:E1.
  apply kget_std_spec in E1 as (F1 & P1 & N1 & H1 & T1 & E1).
  destruct g as [h|e]; unfold ret.
  2:{ intros [= <- <-]. do 3 (split; [done|]). split; [|done].
      exists [(SysGetStd k, Some (os_code e))]. auto. }
  destruct E1 as [-> _].
  destruct (kdup k false s1) as [d s2] eqn:E2.
  apply kdup_spec in E2 as (F2 & P2 & N2 & T2 & E2).
  intros [= <- <-].
  split; [eauto using frame_trans|]. split; [congruence|]. split; [congruence|]. split.
  - exists [(SysGetStd k, None); (SysDup k false, err_of d)].
    rewrite T2, T1, <- app_assoc. destruct d; simpl; auto.
  - rewrite <- H1. destruct d; simpl; congruence.
Qed.

(** Both platform modules meet the postconditions, so the selected one
    does. *)
Lemma sys_pipe_post t s r s' : sys_pipe (sys t) s = (r, s') -> pipe_post s r s'.
Proof.
  unfold sys, cfg_windows. destruct (target_windows t); simpl.
  - apply windows_pipe_post.
  - apply unix_pipe_post.
Qed.

Lemma sys_parent_std_post t k s r s' :
  k < 3 ->
  (match k with 0 => sys_parent_stdin | 1 => sys_parent_stdout | _ => sys_parent_stderr end)
    (sys t) s = (r, s') ->
  std_post k s r s'.
Proof.
  intros Hk. unfold sys, cfg_windows.
  destruct (target_windows t), k as [|[|[|k]]]; simpl; try lia;
    first [apply windows_parent_std_post | apply unix_parent_std_post].
Qed.


(* ------------------------------------------------------------------ *)
(** ** Inheritance *)

Lemma assigned_in objs j o : assigned objs j = Some o -> (j, o) ∈ objs.
Proof.
  induction objs as [|[k o'] rest IH]; simpl; [discriminate|].
  destruct (assigned rest j) eqn:A.
  - intros [= <-]. apply elem_of_cons; right; auto.
  - destruct (Nat.eq_dec k j) as [->|]; [intros [= <-]; apply elem_of_cons; left; done|discriminate].
Qed.

Lemma foldl_redirect_lookup (t : gmap nat Entry) objs j :
  foldl (fun acc (ko : nat * Obj) => <[ko.1 := mkEntry ko.2 true]> acc) t objs !! j =
  match assigned objs j with Some o => Some (mkEntry o true) | None => t !! j end.
Proof.
  revert t. induction objs as [|[k o] rest IH]; intros t; simpl; [done|].
  rewrite IH. destruct (assigned rest j); [done|].
  rewrite lookup_insert. destruct (decide (k = j)), (Nat.eq_dec k j); done.
Qed.

Lemma child_table_lookup t objs j :
  child_table t objs !! j =
  match assigned objs j with
  | Some o => Some (mkEntry o true)
  | None => match t !! j with
            | Some e => if e_inherit e then Some e else None
            | None => None
            end
  end.
Proof.
  unfold child_table. rewrite map_lookup_filter, foldl_redirect_lookup.
  destruct (assigned objs j) as [o|]; simpl;
    [|destruct (t !! j) as [[o [|]]|]; simpl];
    repeat case_guard; simpl in *; done.
Qed.

(** A handle added non-inheritable is invisible to every child. *)
Lemma child_table_insert_noninh t objs h o :
  t !! h = None ->
  child_table (<[h := mkEntry o false]> t) objs = child_table t objs.
Proof.
  intros N. apply map_eq. intros j. rewrite !child_table_lookup.
  destruct (assigned objs j); [done|]. rewrite lookup_insert.
  case_decide; subst; [rewrite N|]; done.
Qed.

Lemma table_refs_false t o :
  table_refs t o = false <-> (forall h e, t !! h = Some e -> e_obj e <> o).
Proof.
  unfold table_refs. split.
  - intros H h e L E. apply not_true_iff_false in H. apply H.
    apply existsb_exists. exists (h, e). split.
    + apply list_elem_of_In, elem_of_map_to_list. done.
    + apply bool_decide_eq_true. done.
  - intros H. apply not_true_iff_false. intros Hex.
    apply existsb_exists in Hex as [[h e] [Hin Hb]].
    apply list_elem_of_In, elem_of_map_to_list in Hin.
    apply bool_decide_eq_true in Hb. eapply H; eauto.
Qed.

Lemma resolve_in t rds objs k o :
  resolve t rds = Some objs -> (k, o) ∈ objs ->
  exists st e, (k, st) ∈ rds /\ t !! stdio_fd st = Some e /\ e_obj e = o.
Proof.
  revert objs. induction rds as [|[k' st] rest IH]; simpl; intros objs.
  - intros [= <-] Hin. apply elem_of_nil in Hin. done.
  - destruct (t !! stdio_fd st) as [e|] eqn:L, (resolve t rest) as [l|] eqn:R;
      try discriminate.
    intros [= <-] Hin. apply elem_of_cons in Hin as [[= -> ->]|Hin].
    + exists st, e. split; [apply elem_of_cons; left; done|done].
    + destruct (IH l eq_refl Hin) as (st' & e' & I & L' & E').
      exists st', e'. split; [apply elem_of_cons; right|]; done.
Qed.

(** A child gets [o] only through a redirection. *)
Lemma child_table_no_ref t rds objs o :
  noinh t o -> resolve t rds = Some objs ->
  (forall k st e, (k, st) ∈ rds -> t !! stdio_fd st = Some e -> e_obj e <> o) ->
  table_refs (child_table t objs) o = false.
Proof.
  intros NI R NR. apply table_refs_false. intros j e. rewrite child_table_lookup.
  destruct (assigned objs j) as [o'|] eqn:A.
  - intros [= <-]. simpl. apply assigned_in in A.
    destruct (resolve_in _ _ _ _ _ R A) as (st & e' & I & L & <-).
    eauto.
  - destruct (t !! j) as [e'|] eqn:L; [|discriminate].
    destruct (e_inherit e') eqn:I; [|discriminate]. intros [= <-] E.
    rewrite (NI j e' L E) in I. discriminate.
Qed.

Lemma ona_refl t : only_noninh_added t t.
Proof. intros h e L. auto. Qed.

Lemma ona_trans t1 t2 t3 :
  only_noninh_added t1 t2 -> only_noninh_added t2 t3 -> only_noninh_added t1 t3.
Proof. intros A B h e L. destruct (B h e L); auto. Qed.

Lemma ona_delete t h : only_noninh_added t (delete h t).
Proof. intros j e L. apply lookup_delete_Some in L as [_ L]. auto. Qed.

Lemma ona_insert t h o : only_noninh_added t (<[h := mkEntry o false]> t).
Proof.
  intros j e. rewrite lookup_insert. case_decide; [intros [= <-]; auto|auto].
Qed.

Lemma noinh_ona t t' o : noinh t o -> only_noninh_added t t' -> noinh t' o.
Proof. intros NI A h e L E. destruct (A h e L); eauto. Qed.


(* ------------------------------------------------------------------ *)
(** ** Client operations *)

Lemma kwrite_tables h d s r s' :
  kwrite h d s = (r, s') ->
  os_handles s' = os_handles s /\ os_children s' = os_children s.
Proof.
  unfold kwrite. destruct (os_handles s !! h) as [[[p|p|n] inh]|];
    try destruct (held s (PipeRead p)); intros [= <- <-]; simpl; auto.
Qed.

Lemma kread_tables h n s r s' :
  kread h n s = (r, s') ->
  os_handles s' = os_handles s /\ os_children s' = os_children s.
Proof.
  unfold kread. destruct (os_handles s !! h) as [[[p|p|m] inh]|];
    try destruct (default [] (os_pipes s !! p));
    try destruct (held s (PipeWrite p)); intros [= <- <-]; simpl; auto.
Qed.

Lemma close_all_spec hs s u s' :
  close_all hs s = (u, s') ->
  only_noninh_added (os_handles s) (os_handles s') /\ frame s s'.
Proof.
  revert s. induction hs as [|h rest IH]; intros s; simpl.
  - intros [= <- <-]. split; [apply ona_refl|apply frame_refl].
  - unfold bind. destruct (kclose h s) as [x s1] eqn:E.
    apply kclose_spec in E as (F1 & _ & _ & H1 & _).
    intros R. destruct (IH s1 R) as [A F2]. split.
    + eapply ona_trans; [|exact A]. rewrite H1. apply ona_delete.
    + eapply frame_trans; eauto.
Qed.

Lemma spawn_spec rds s r s' :
  spawn rds s = (r, s') ->
  only_noninh_added (os_handles s) (os_handles s') /\
  match r with
  | Ok i => exists objs, resolve (os_handles s) rds = Some objs /\
      os_children s' = os_children s ++ [child_table (os_handles s) objs] /\
      i = length (os_children s)
  | Err _ => os_children s' = os_children s
  end.
Proof.
  unfold spawn. destruct (resolve (os_handles s) rds) as [objs|] eqn:R.
  - destruct (close_all _ _) as [u s2] eqn:C. apply close_all_spec in C as [A [Fc _]].
    intros [= <- <-]. simpl in A, Fc. split; [done|]. eauto.
  - destruct (close_all _ _) as [u s2] eqn:C. apply close_all_spec in C as [A [Fc _]].
    intros [= <- <-]. split; done.
Qed.

Lemma step_ona o s u s' :
  step o s = (u, s') -> only_noninh_added (os_handles s) (os_handles s').
Proof.
  destruct o as [h d|h n|h|h|rds|i]; simpl; unfold bind, ret.
  - destruct (kwrite h d s) eqn:E. apply kwrite_tables in E as [E _].
    intros [= <- <-]. rewrite E. apply ona_refl.
  - destruct (kread h n s) eqn:E. apply kread_tables in E as [E _].
    intros [= <- <-]. rewrite E. apply ona_refl.
  - destruct (kclose h s) eqn:E. apply kclose_spec in E as (_ & _ & _ & E & _).
    intros [= <- <-]. rewrite E. apply ona_delete.
  - destruct (kdup h false s) as [r s1] eqn:E. apply kdup_spec in E as (_ & _ & _ & _ & E).
    intros [= <- <-]. destruct r as [h'|].
    + destruct E as (e & _ & _ & ->). apply ona_insert.
    + rewrite E. apply ona_refl.
  - destruct (spawn rds s) eqn:E. apply spawn_spec in E as [E _].
    intros [= <- <-]. done.
  - intros [= <- <-]. apply ona_refl.
Qed.

Lemma run_ona ops s u s' :
  run ops s = (u, s') -> only_noninh_added (os_handles s) (os_handles s').
Proof.
  revert s. induction ops as [|o rest IH]; intros s; simpl; unfold bind, ret.
  - intros [= <- <-]. apply ona_refl.
  - destruct (step o s) as [v s1] eqn:E. apply step_ona in E.
    intros R. eapply ona_trans; [exact E|exact (IH s1 R)].
Qed.

(** In a well-formed state nothing refers to the next pipe. *)
Lemma wf_next_pipe_unused s h e :
  wf s = true -> os_handles s !! h = Some e ->
  e_obj e <> PipeRead (os_next_pipe s) /\ e_obj e <> PipeWrite (os_next_pipe s).
Proof.
  unfold wf, table_wf. intros W L. apply andb_prop in W as [W _].
  rewrite forallb_forall in W.
  assert (B : entry_below (os_next_pipe s) e = true).
  { apply (W (h, e)). apply list_elem_of_In, elem_of_map_to_list. done. }
  unfold entry_below in B. destruct (e_obj e); split; intros [=]; subst;
    apply Nat.ltb_lt in B; lia.
Qed.

Lemma wf_next_pipe_unused_children s c o :
  wf s = true -> c ∈ os_children s ->
  o = PipeRead (os_next_pipe s) \/ o = PipeWrite (os_next_pipe s) ->
  table_refs c o = false.
Proof.
  unfold wf. intros W I Ho. apply andb_prop in W as [_ W].
  rewrite forallb_forall in W. apply list_elem_of_In in I.
  specialize (W c I). unfold table_wf in W. rewrite forallb_forall in W.
  apply table_refs_false. intros h e L E.
  assert (B : entry_below (os_next_pipe s) e = true).
  { apply (W (h, e)). apply list_elem_of_In, elem_of_map_to_list. done. }
  unfold entry_below in B. rewrite E in B.
  destruct Ho as [->| ->]; apply Nat.ltb_lt in B; lia.
Qed.

(** After a successful [pipe], no inheritable handle refers to the pipe. *)
Lemma pipe_post_noinh s pr s' :
  wf s = true -> pipe_post s (Ok pr) s' ->
  noinh (os_handles s') (PipeRead (os_next_pipe s)) /\
  noinh (os_handles s') (PipeWrite (os_next_pipe s)).
Proof.
  intros W (_ & _ & _ & _ & _ & H & _). rewrite H.
  split; intros h e; rewrite !lookup_insert;
    repeat case_decide; intros L E; simplify_eq; try done;
    destruct (wf_next_pipe_unused s h e W L); done.
Qed.

(* ------------------------------------------------------------------ *)
(** ** Byte transfer through a pipe *)

Lemma table_refs_true t h e o :
  t !! h = Some e -> e_obj e = o -> table_refs t o = true.
Proof.
  intros L E. destruct (table_refs t o) eqn:R; [done|].
  exfalso. eapply table_refs_false; eauto.
Qed.

Lemma held_false s o :
  (forall h e, os_handles s !! h = Some e -> e_obj e <> o) ->
  (forall c, c ∈ os_children s -> table_refs c o = false) ->
  held s o = false.
Proof.
  intros A B. unfold held. apply orb_false_intro.
  - apply table_refs_false. done.
  - apply not_true_iff_false. intros Ex. apply existsb_exists in Ex as [c [I R]].
    apply list_elem_of_In in I. rewrite B in R; done.
Qed.

(** Reading to the end of a pipe nobody can write to returns its buffer. *)
Lemma read_to_end_drains h n fuel s p inh :
  0 < n -> os_handles s !! h = Some (mkEntry (PipeRead p) inh) ->
  held s (PipeWrite p) = false ->
  length (default [] (os_pipes s !! p)) < fuel ->
  exists s', read_to_end h n fuel s = (Some (Done (Ok (default [] (os_pipes s !! p)))), s').
Proof.
  intros Hn. revert s. induction fuel as [|f IH]; intros s L Hw Hf; [lia|].
  simpl. unfold bind at 1. unfold kread. rewrite L.
  destruct (default [] (os_pipes s !! p)) as [|x xs] eqn:B.
  - rewrite Hw. unfold ret. eauto.
  - destruct n as [|n']; [lia|]. simpl.
    set (s1 := set_pipes (<[p:=drop n' xs]> (os_pipes s)) s).
    destruct (IH s1) as [s2 E]; [exact L|exact Hw| |].
    + simpl. rewrite lookup_insert_eq. simpl. rewrite length_drop. simpl in Hf. lia.
    + unfold bind. rewrite E. unfold ret. simpl. rewrite lookup_insert_eq. simpl.
      rewrite take_drop. eauto.
Qed.

(** What has been read, followed by what is buffered, is what was
    buffered before followed by what was written. *)
Lemma transfer_fifo r w p ir iw acts s got s' :
  os_handles s !! r = Some (mkEntry (PipeRead p) ir) ->
  os_handles s !! w = Some (mkEntry (PipeWrite p) iw) ->
  transfer r w acts s = (got, s') ->
  os_handles s' = os_handles s /\ os_children s' = os_children s /\
  got ++ default [] (os_pipes s' !! p) = default [] (os_pipes s !! p) ++ written acts.
Proof.
  intros Lr Lw. revert s got s' Lr Lw.
  induction acts as [|[d|n] rest IH]; intros s got s' Lr Lw; simpl; unfold bind, ret.
  - intros [= <- <-]. rewrite app_nil_r. auto.
  - unfold kwrite at 1. rewrite Lw.
    assert (held s (PipeRead p) = true) as Hr.
    { unfold held. rewrite (table_refs_true _ _ _ (PipeRead p) Lr eq_refl). done. }
    rewrite Hr.
    destruct (transfer r w rest _) as [g s2] eqn:E.
    apply IH in E as (H2 & C2 & G2); [|exact Lr|exact Lw].
    intros [= <- <-]. simpl in *. rewrite H2, C2, G2, lookup_insert_eq. simpl.
    rewrite app_assoc. auto.
  - unfold kread at 1. rewrite Lr.
    destruct (default [] (os_pipes s !! p)) as [|x xs] eqn:B.
    + destruct (held s (PipeWrite p));
        destruct (transfer r w rest s) as [g s2] eqn:E;
        apply IH in E as (H2 & C2 & G2); try assumption;
        intros [= <- <-]; rewrite H2, C2, G2, B; auto.
    + destruct (transfer r w rest _) as [g s2] eqn:E.
      apply IH in E as (H2 & C2 & G2); [|exact Lr|exact Lw].
      intros [= <- <-]. simpl in *. rewrite H2, C2. split; [done|]. split; [done|].
      rewrite <- app_assoc, G2, lookup_insert_eq. simpl.
      rewrite app_assoc, take_drop. done.
Qed.

Lemma parent_stream_post t k s r s' :
  k < 3 -> parent_stream t k s = (r, s') -> std_post k s r s'.
Proof.
  intros Hk. unfold parent_stream, parent_stdin, parent_stdout, parent_stderr.
  intros E. apply (sys_parent_std_post t k); [done|].
  destruct k as [|[|[|k]]]; try lia; exact E.
Qed.

(* ------------------------------------------------------------------ *)
(** ** Who can hold an object after a run *)

(** In a well-formed state no handle refers to a pipe not yet created. *)
Lemma wf_handles_no_ref s h e n :
  wf s = true -> os_handles s !! h = Some e -> os_next_pipe s <= n ->
  e_obj e <> PipeRead n /\ e_obj e <> PipeWrite n.
Proof.
  unfold wf, table_wf. intros W L Hn. apply andb_prop in W as [W _].
  rewrite forallb_forall in W.
  assert (B : entry_below (os_next_pipe s) e = true).
  { apply (W (h, e)). apply list_elem_of_In, elem_of_map_to_list. done. }
  unfold entry_below in B. destruct (e_obj e); split; intros [=]; subst;
    apply Nat.ltb_lt in B; lia.
Qed.

Lemma wf_children_no_ref s c n :
  wf s = true -> c ∈ os_children s -> os_next_pipe s <= n ->
  table_refs c (PipeRead n) = false /\ table_refs c (PipeWrite n) = false.
Proof.
  unfold wf. intros W I Hn. apply andb_prop in W as [_ W].
  rewrite forallb_forall in W. apply list_elem_of_In in I.
  specialize (W c I). unfold table_wf in W. rewrite forallb_forall in W.
  split; apply table_refs_false; intros h e L E;
    (assert (B : entry_below (os_next_pipe s) e = true)
       by (apply (W (h, e)); apply list_elem_of_In, elem_of_map_to_list; done));
    unfold entry_below in B; rewrite E in B; apply Nat.ltb_lt in B; lia.
Qed.

Lemma table_refs_empty o : table_refs ∅ o = false.
Proof. apply table_refs_false. intros h e L. rewrite lookup_empty in L. done. Qed.


(** Only the children [G] may hold [o], and the parent's handles to [o]
    are non-inheritable. *)
Definition only_given (o : Obj) (G : list nat) (s : OS) : Prop :=
  forall j c, os_children s !! j = Some c -> table_refs c o = true -> j ∈ G.

Lemma names_obj_false t o rds :
  names_obj t o rds = false ->
  forall k st e, (k, st) ∈ rds -> t !! stdio_fd st = Some e -> e_obj e <> o.
Proof.
  unfold names_obj. intros N k st e I L E.
  apply not_true_iff_false in N. apply N. apply existsb_exists.
  exists (k, st). split; [apply list_elem_of_In; done|]. simpl. rewrite L.
  apply bool_decide_eq_true. done.
Qed.

Lemma step_given_inv o op s u s' G :
  noinh (os_handles s) o -> only_given o G s -> step op s = (u, s') ->
  noinh (os_handles s') o /\ only_given o (G ++ given_step o op s) s'.
Proof.
  intros NI OG E. split; [eapply noinh_ona; [exact NI|exact (step_ona _ _ _ _ E)]|].
  intros j c Lc Rc. apply elem_of_app.
  destruct op as [h d|h m|h|h|rds|i]; simpl in E; unfold bind, ret in E.
  - destruct (kwrite h d s) eqn:K. apply kwrite_tables in K as [_ K].
    injection E as <- <-. rewrite K in Lc. eauto.
  - destruct (kread h m s) eqn:K. apply kread_tables in K as [_ K].
    injection E as <- <-. rewrite K in Lc. eauto.
  - destruct (kclose h s) eqn:K. apply kclose_spec in K as ([K _] & _).
    injection E as <- <-. rewrite K in Lc. eauto.
  - destruct (kdup h false s) eqn:K. apply kdup_spec in K as ([K _] & _).
    injection E as <- <-. rewrite K in Lc. eauto.
  - destruct (spawn rds s) as [r s1] eqn:K. injection E as <- <-.
    apply spawn_spec in K as [_ K]. destruct r as [i|er].
    + destruct K as (objs & R & C & ->). rewrite C in Lc.
      apply lookup_app_Some in Lc as [Lc|[Hj Lc]]; [eauto|].
      apply list_lookup_singleton_Some in Lc as [Hj' <-].
      right. simpl. destruct (names_obj (os_handles s) o rds) eqn:N.
      * apply elem_of_cons. left. lia.
      * rewrite (child_table_no_ref _ _ _ _ NI R (names_obj_false _ _ _ N)) in Rc.
        discriminate.
    + rewrite K in Lc. eauto.
  - injection E as <- <-. simpl in Lc.
    apply list_lookup_insert_Some in Lc as [(_ & <- & _)|(_ & Lc)].
    + rewrite table_refs_empty in Rc. discriminate.
    + eauto.
Qed.

Lemma run_given_inv o ops s u s' G :
  noinh (os_handles s) o -> only_given o G s -> run ops s = (u, s') ->
  noinh (os_handles s') o /\ only_given o (G ++ given o ops s) s'.
Proof.
  revert s G. induction ops as [|op rest IH]; intros s G NI OG; simpl; unfold bind, ret.
  - intros [= <- <-]. rewrite app_nil_r. done.
  - destruct (step op s) as [v s1] eqn:E.
    destruct (step_given_inv o op s v s1 G NI OG E) as [NI1 OG1].
    intros R. destruct (IH s1 _ NI1 OG1 R) as [NI2 OG2].
    split; [done|]. rewrite app_assoc. simpl. exact OG2.
Qed.

(* ------------------------------------------------------------------ *)
(** ** Ownership *)

Lemma stdio_from_file_eq t f : stdio_from_file t f = mkStdio (file_fd f).
Proof. unfold stdio_from_file, sys. destruct (cfg_windows t); reflexivity. Qed.

Lemma owners_delete h vs i v :
  vs !! i = Some v ->
  owners h vs = owners h (delete i vs) + (if Nat.eq_dec (value_fd v) h then 1 else 0).
Proof.
  intros L. unfold owners. rewrite delete_take_drop.
  pose proof (take_drop_middle vs i v L) as E.
  rewrite <- E at 1. rewrite !filter_app, filter_cons, !length_app.
  case_decide; destruct (Nat.eq_dec (value_fd v) h); simpl; try lia; done.
Qed.

Lemma owners_pos h v vs : v ∈ vs -> value_fd v = h -> 0 < owners h vs.
Proof.
  intros I E. unfold owners.
  assert (v ∈ filter (fun v => value_fd v = h) vs) as I' by (apply list_elem_of_filter; done).
  destruct (filter _ vs); [apply elem_of_nil in I'; done|simpl; lia].
Qed.

Lemma closes_app h tr1 tr2 : closes h (tr1 ++ tr2) = closes h tr1 + closes h tr2.
Proof.
  induction tr1 as [|[c r] rest IH]; simpl; [done|].
  destruct c; simpl; rewrite ?IH; lia.
Qed.

Lemma drop_value_trace v s u s' :
  drop_value v s = (u, s') ->
  exists r, os_trace s' = os_trace s ++ [(SysClose (value_fd v), r)].
Proof.
  destruct v as [f|st]; simpl; unfold drop_file, drop_stdio, bind, ret;
    match goal with |- context [kclose ?h s] => destruct (kclose h s) as [r s1] eqn:K end;
    apply kclose_spec in K as (_ & _ & _ & _ & T); intros [= <- <-]; eauto.
Qed.

(** Each drop closes the handle of the value dropped: what has been
    closed plus what is still owned is what was owned. *)
Lemma drop_seq_closes h is vs s vs2 s' :
  drop_seq is vs s = (Some vs2, s') ->
  exists tr, os_trace s' = os_trace s ++ tr /\ closes h tr + owners h vs2 = owners h vs.
Proof.
  revert vs s. induction is as [|i rest IH]; intros vs s; simpl; unfold bind, ret.
  - intros [= <- <-]. exists []. rewrite app_nil_r. done.
  - unfold drop_owned, bind, ret. destruct (vs !! i) as [v|] eqn:L; [|discriminate].
    destruct (drop_value v s) as [u1 s1] eqn:D.
    apply drop_value_trace in D as [r T1]. intros R.
    destruct (IH _ _ R) as (tr & T2 & C).
    exists ((SysClose (value_fd v), r) :: tr). split.
    + rewrite T2, T1, <- app_assoc. done.
    + rewrite (owners_delete h vs i v L), <- C. simpl.
      destruct (Nat.eq_dec (value_fd v) h); lia.
Qed.

(* ------------------------------------------------------------------ *)
(** ** The claims *)

(** C10: each public function of [lib.rs] is the function of the platform
    module [sys] it calls, and for every target exactly one platform module
    is compiled ([cfg(not(windows))] and [cfg(windows)] are exclusive and
    exhaustive). *)
Theorem lib_delegates_to_sys (t : Target) :
  pipe t = sys_pipe (sys t) /\
  parent_stdin t = sys_parent_stdin (sys t) /\
  parent_stdout t = sys_parent_stdout (sys t) /\
  parent_stderr t = sys_parent_stderr (sys t) /\
  (forall file, stdio_from_file t file = sys_stdio_from_file (sys t) file) /\
  compiled_sys t = [sys t] /\
  cfg_not_windows t = negb (cfg_windows t).
Proof.
  do 4 (split; [reflexivity|]). split; [reflexivity|].
  unfold compiled_sys, sys, cfg_not_windows, cfg_windows.
  destruct (target_windows t); split; reflexivity.
Qed.

(** C5: the public operations have the types of the crate's interface,
    and a successful [pipe] returns a pair whose read and write endpoints
    are two distinct handles, both new and owned by the pair. *)
Theorem pipe_pair_distinct_endpoints (t : Target) s pr s' :
  api_pipe (lib_api t) s = (Ok pr, s') ->
  file_fd (read pr) <> file_fd (write pr) /\
  os_handles s !! file_fd (read pr) = None /\
  os_handles s !! file_fd (write pr) = None /\
  is_Some (os_handles s' !! file_fd (read pr)) /\
  is_Some (os_handles s' !! file_fd (write pr)).
Proof.
  simpl. unfold pipe. intros E. apply sys_pipe_post in E as (_ & _ & Nr & Nw & D & H & _).
  rewrite H. repeat split; try done.
  - rewrite lookup_insert_ne by congruence. rewrite lookup_insert_eq. eauto.
  - rewrite lookup_insert_eq. eauto.
Qed.

(** C4: [stdio_from_file] cannot fail and makes no syscall: it moves the
    owned [File] into a [Stdio] on the same handle (no duplicate). If the
    file was the only owner of its handle, afterwards no [File] owns it
    and exactly one value does; whichever owned values are then dropped,
    in any order, the handle has been closed once for each owner gone, so
    exactly once when all are dropped. *)
Theorem stdio_from_file_moves_handle (t : Target) vs i f :
  vs !! i = Some (VFile f) -> owners (file_fd f) vs = 1 ->
  exists vs', call_stdio_from_file t i vs = Some vs' /\
    VStdio (mkStdio (file_fd f)) ∈ vs' /\
    (forall g, VFile g ∈ vs' -> file_fd g <> file_fd f) /\
    owners (file_fd f) vs' = 1 /\
    forall is s vs2 s', drop_seq is vs' s = (Some vs2, s') ->
      exists tr, os_trace s' = os_trace s ++ tr /\
                 closes (file_fd f) tr + owners (file_fd f) vs2 = 1.
Proof.
  intros L O. pose proof (owners_delete (file_fd f) vs i _ L) as Od.
  simpl in Od. destruct (Nat.eq_dec (file_fd f) (file_fd f)) as [_|]; [|done].
  assert (O0 : owners (file_fd f) (delete i vs) = 0) by lia.
  exists (delete i vs ++ [VStdio (stdio_from_file t f)]).
  unfold call_stdio_from_file. rewrite L. split; [done|].
  rewrite stdio_from_file_eq.
  assert (O1 : owners (file_fd f) (delete i vs ++ [VStdio (mkStdio (file_fd f))]) = 1).
  { unfold owners. rewrite filter_app, length_app. unfold owners in O0. rewrite O0.
    rewrite filter_cons. simpl. case_decide; [done|]. simpl in *. done. }
  split; [apply elem_of_app; right; apply elem_of_cons; left; done|].
  split.
  { intros g I E. apply elem_of_app in I as [I|I].
    - pose proof (owners_pos (file_fd f) (VFile g) (delete i vs) I E). lia.
    - apply elem_of_cons in I as [I|I]; [discriminate|apply elem_of_nil in I; done]. }
  split; [exact O1|].
  intros is s vs2 s' D. rewrite <- O1. exact (drop_seq_closes _ _ _ _ _ _ D).
Qed.

(** C3: when [pipe] (or a [parent_*] duplication) fails, every handle it
    created has been closed: the handle tables are those before the call.
    The error returned is the one of the first failing syscall, whatever
    the cleanup closes report. *)
Theorem failed_acquisition_leaks_nothing (t : Target) :
  (forall s e s', pipe t s = (Err e, s') ->
     os_handles s' = os_handles s /\ os_children s' = os_children s /\
     exists tr, os_trace s' = os_trace s ++ tr /\ first_failure tr = Some (os_code e)) /\
  (forall k s e s', k < 3 -> parent_stream t k s = (Err e, s') ->
     os_handles s' = os_handles s /\ os_children s' = os_children s /\
     exists tr, os_trace s' = os_trace s ++ tr /\ first_failure tr = Some (os_code e)).
Proof.
  split.
  - intros s e s' E. apply sys_pipe_post in E as ([C _] & (tr & T & F & _) & H).
    repeat split; auto. eauto.
  - intros k s e s' Hk E. apply parent_stream_post in E as ([C _] & _ & _ & (tr & T & F & _) & H);
      [|done]. repeat split; auto. eauto.
Qed.

(** C8: every operation returns an error exactly when one of its syscalls
    failed, and then with the OS error code of the first failure,
    unmodified; after that failure only handles are closed (no retry, no
    further acquisition). *)
Theorem os_errors_reported_unmodified (t : Target) s :
  (let (r, s') := pipe t s in reports s (err_of r) s') /\
  (let (r, s') := parent_stdin t s in reports s (err_of r) s') /\
  (let (r, s') := parent_stdout t s in reports s (err_of r) s') /\
  (let (r, s') := parent_stderr t s in reports s (err_of r) s').
Proof.
  repeat split.
  - destruct (pipe t s) as [r s'] eqn:E. apply sys_pipe_post in E as (_ & R & _). done.
  - destruct (parent_stdin t s) as [r s'] eqn:E.
    apply (parent_stream_post t 0) in E as (_ & _ & _ & R & _); [done|lia].
  - destruct (parent_stdout t s) as [r s'] eqn:E.
    apply (parent_stream_post t 1) in E as (_ & _ & _ & R & _); [done|lia].
  - destruct (parent_stderr t s) as [r s'] eqn:E.
    apply (parent_stream_post t 2) in E as (_ & _ & _ & R & _); [done|lia].
Qed.

Lemma pipes_kept_refl s : pipes_kept s s.
Proof. split; [done|lia]. Qed.

Lemma pipes_kept_trans s1 s2 s3 : pipes_kept s1 s2 -> pipes_kept s2 s3 -> pipes_kept s1 s3.
Proof.
  intros [A B] [C D]. split; [|lia]. intros q Hq. rewrite C by lia. apply A. done.
Qed.

Lemma kpipe_kept inh s r s' : kpipe inh s = (r, s') -> pipes_kept s s'.
Proof.
  intros E. apply kpipe_spec in E as [_ E]. destruct r as [[rd wr]|e].
  - destruct E as (_ & _ & _ & _ & P & N & _). split; [|lia].
    intros q Hq. rewrite P, lookup_insert_ne by lia. done.
  - destruct E as (_ & P & N & _). split; [intros q _; rewrite P; done|lia].
Qed.

Lemma kdup_kept h inh s r s' : kdup h inh s = (r, s') -> pipes_kept s s'.
Proof.
  intros E. apply kdup_spec in E as (_ & P & N & _).
  split; [intros q _; rewrite P; done|lia].
Qed.

Lemma kclose_kept h s r s' : kclose h s = (r, s') -> pipes_kept s s'.
Proof.
  intros E. apply kclose_spec in E as (_ & P & N & _).
  split; [intros q _; rewrite P; done|lia].
Qed.

(** Steps through a strategy, recording that each syscall keeps the
    existing pipes. *)
Ltac kept_steps :=
  repeat match goal with
  | |- context [kpipe ?b ?st] =>
      let E := fresh "E" in
      destruct (kpipe b st) as [[[? ?]|?] ?] eqn:E; apply kpipe_kept in E
  | |- context [kdup ?h ?b ?st] =>
      let E := fresh "E" in
      destruct (kdup h b st) as [[?|?] ?] eqn:E; apply kdup_kept in E
  | |- context [kclose ?h ?st] =>
      let E := fresh "E" in
      destruct (kclose h st) as [[?|] ?] eqn:E; apply kclose_kept in E
  end;
  unfold ret; intros [= <- <-]; eauto 10 using pipes_kept_trans.

Lemma unix_pipe_kept s r s' : Unix.pipe s = (r, s') -> pipes_kept s s'.
Proof. unfold Unix.pipe, bind. kept_steps. Qed.

Lemma windows_pipe_kept s r s' : Windows.pipe s = (r, s') -> pipes_kept s s'.
Proof. unfold Windows.pipe, bind. kept_steps. Qed.

Lemma close_all_one h s u s' :
  close_all [h] s = (u, s') ->
  os_handles s' = delete h (os_handles s) /\ frame s s'.
Proof.
  simpl. unfold bind, ret. destruct (kclose h s) as [x s1] eqn:E.
  apply kclose_spec in E as (F & _ & _ & H & _). intros [= <- <-]. done.
Qed.

(** A child gets nothing on slot [d] unless a redirection puts something
    there or the parent's handle [d] is inheritable. *)
Lemma child_table_slot_none t rds objs d :
  resolve t rds = Some objs ->
  (forall j st, (j, st) ∈ rds -> j <> d) ->
  (forall e, t !! d = Some e -> e_inherit e = false) ->
  child_table t objs !! d = None.
Proof.
  intros R NR NI. rewrite child_table_lookup.
  destruct (assigned objs d) as [o|] eqn:A.
  - apply assigned_in in A. destruct (resolve_in _ _ _ _ _ R A) as (st & e & I & _).
    exfalso. exact (NR d st I eq_refl).
  - destruct (t !! d) as [e|] eqn:L; [|done]. rewrite (NI e eq_refl). done.
Qed.

(** C1: each endpoint of a pipe is non-inheritable: a child spawned after
    [pipe] returns, whatever the process did in between, holds no handle
    to that endpoint unless a redirection of that spawn names it (so a
    child given the read end does not get the write end). The handle of
    [parent_stdin], [parent_stdout] or [parent_stderr] is non-inheritable:
    a child spawned next sees the same handles as if it did not exist, and
    a child spawned at any later time has nothing on that handle unless a
    redirection of that spawn puts something there. *)
Theorem acquired_handles_not_inheritable (t : Target) :
  (forall s pr s1 ops s2 rds i s3 o,
     wf s = true ->
     pipe t s = (Ok pr, s1) ->
     o = PipeRead (os_next_pipe s) \/ o = PipeWrite (os_next_pipe s) ->
     run ops s1 = (tt, s2) ->
     spawn rds s2 = (Ok i, s3) ->
     (forall k st e, (k, st) ∈ rds -> os_handles s2 !! stdio_fd st = Some e -> e_obj e <> o) ->
     os_handles s1 !! file_fd (read pr) = Some (mkEntry (PipeRead (os_next_pipe s)) false) /\
     os_handles s1 !! file_fd (write pr) = Some (mkEntry (PipeWrite (os_next_pipe s)) false) /\
     exists c, os_children s3 !! i = Some c /\ table_refs c o = false) /\
  (forall k s st s1 ops s2 rds i s3,
     k < 3 ->
     parent_stream t k s = (Ok st, s1) ->
     run ops s1 = (tt, s2) ->
     spawn rds s2 = (Ok i, s3) ->
     (forall j st', (j, st') ∈ rds -> j <> stdio_fd st) ->
     (exists o, os_handles s1 !! stdio_fd st = Some (mkEntry o false)) /\
     (forall objs, child_table (os_handles s1) objs = child_table (os_handles s) objs) /\
     exists c, os_children s3 !! i = Some c /\ c !! stdio_fd st = None).
Proof.
  split.
  - intros s pr s1 ops s2 rds i s3 o W E1 Ho E2 E3 NR.
    apply sys_pipe_post in E1 as P.
    destruct (pipe_post_noinh s pr s1 W P) as [NIr NIw].
    destruct P as (_ & _ & Nr & Nw & D & H1 & _).
    apply run_ona in E2 as A.
    apply spawn_spec in E3 as (_ & objs & R & C & ->).
    split; [rewrite H1, lookup_insert_ne, lookup_insert_eq by congruence; done|].
    split; [rewrite H1, lookup_insert_eq; done|].
    exists (child_table (os_handles s2) objs). split.
    + rewrite C. apply list_lookup_middle. done.
    + eapply child_table_no_ref; [|exact R|exact NR].
      destruct Ho as [->| ->]; eauto using noinh_ona.
  - intros k s st s1 ops s2 rds i s3 Hk E1 E2 E3 NR.
    apply parent_stream_post in E1 as (_ & _ & _ & _ & e & _ & N & H); [|done].
    apply run_ona in E2 as A.
    apply spawn_spec in E3 as (_ & objs & R & C & ->).
    split; [exists (e_obj e); rewrite H, lookup_insert_eq; done|].
    split; [intros objs'; rewrite H; apply child_table_insert_noninh; done|].
    exists (child_table (os_handles s2) objs). split.
    + rewrite C. apply list_lookup_middle. done.
    + apply (child_table_slot_none _ rds); [exact R|exact NR|].
      intros e' L. destruct (A _ _ L) as [L1|I]; [|exact I].
      rewrite H, lookup_insert_eq in L1. injection L1 as <-. done.
Qed.

(** C2: the bytes written to the write endpoint of a new pipe, in any
    interleaving with reads of the read endpoint, are read back exactly and
    in order once the write endpoint is closed and the read endpoint is
    read to end-of-stream. *)
Theorem pipe_carries_bytes_in_order (t : Target) s pr s1 acts got s2 u s3 n :
  wf s = true ->
  pipe t s = (Ok pr, s1) ->
  transfer (file_fd (read pr)) (file_fd (write pr)) acts s1 = (got, s2) ->
  drop_file (write pr) s2 = (u, s3) ->
  0 < n ->
  exists rest s4,
    read_to_end (file_fd (read pr)) n (S (length (written acts))) s3 =
      (Some (Done (Ok rest)), s4) /\
    got ++ rest = written acts.
Proof.
  intros W E1 E2 E3 Hn. unfold drop_file, bind, ret in E3.
  apply sys_pipe_post in E1 as ([C1 _] & _ & Nr & Nw & D & H1 & P1 & _).
  set (p := os_next_pipe s) in *.
  set (r := file_fd (read pr)) in *. set (w := file_fd (write pr)) in *.
  assert (Lr : os_handles s1 !! r = Some (mkEntry (PipeRead p) false))
    by (rewrite H1, lookup_insert_ne, lookup_insert_eq by congruence; done).
  assert (Lw : os_handles s1 !! w = Some (mkEntry (PipeWrite p) false))
    by (rewrite H1, lookup_insert_eq; done).
  apply (transfer_fifo r w p false false) in E2 as (H2 & C2 & G); [|done|done].
  rewrite P1, lookup_insert_eq in G. simpl in G.
  destruct (kclose w s2) as [x s3'] eqn:K. injection E3 as <- <-.
  apply kclose_spec in K as ([C3 _] & P3 & _ & H3 & _).
  edestruct (read_to_end_drains r n (S (length (written acts))) s3' p false) as [s4 R].
  - done.
  - rewrite H3, lookup_delete_ne, H2 by congruence. done.
  - apply held_false.
    + intros h e L. rewrite H3, H2, H1, lookup_delete in L.
      case_decide; [discriminate|]. rewrite !lookup_insert in L.
      case_decide; [congruence|]. case_decide.
      * injection L as <-. simpl. discriminate.
      * destruct (wf_next_pipe_unused s h e W L). done.
    + intros c I. rewrite C3, C2, C1 in I.
      apply (wf_next_pipe_unused_children s c); auto.
  - rewrite P3. rewrite <- G, length_app. lia.
  - exists (default [] (os_pipes s3' !! p)), s4. split; [done|]. rewrite P3. done.
Qed.

(** C6: a reader of a pipe returned by [pipe] does not block once the
    write endpoint and every duplicate of it are closed: the parent holds
    no handle to the write side any more, and every child given a
    duplicate of it through a redirection has exited. Non-inheritability
    makes these the only holders: reading returns the buffered bytes and
    then end-of-stream. *)
Theorem reader_gets_eof_once_writers_closed (t : Target) s pr s1 ops s2 n :
  wf s = true ->
  pipe t s = (Ok pr, s1) ->
  run ops s1 = (tt, s2) ->
  os_handles s2 !! file_fd (read pr) = Some (mkEntry (PipeRead (os_next_pipe s)) false) ->
  table_refs (os_handles s2) (PipeWrite (os_next_pipe s)) = false ->
  Forall (exited s2) (given (PipeWrite (os_next_pipe s)) ops s1) ->
  0 < n ->
  fst (kread (file_fd (read pr)) n s2) <> Blocked /\
  exists s3,
    read_to_end (file_fd (read pr)) n
      (S (length (default [] (os_pipes s2 !! os_next_pipe s)))) s2 =
    (Some (Done (Ok (default [] (os_pipes s2 !! os_next_pipe s)))), s3).
Proof.
  intros W E1 E2 L Hp Hx Hn.
  apply sys_pipe_post in E1 as P.
  destruct (pipe_post_noinh s pr s1 W P) as [_ NIw].
  destruct P as ([C1 _] & _).
  edestruct (run_given_inv (PipeWrite (os_next_pipe s)) ops s1 tt s2 []) as [_ G];
    [exact NIw| |exact E2|].
  { intros j c Lc Rc. rewrite C1 in Lc. apply list_elem_of_lookup_2 in Lc.
    rewrite (proj2 (wf_children_no_ref s c (os_next_pipe s) W Lc (le_n _))) in Rc.
    discriminate. }
  assert (Hw : held s2 (PipeWrite (os_next_pipe s)) = false).
  { apply held_false; [apply table_refs_false; exact Hp|].
    intros c I. apply list_elem_of_lookup_1 in I as [j Lc].
    destruct (table_refs c _) eqn:Rc; [|done].
    specialize (G j c Lc Rc). simpl in G.
    rewrite Forall_forall in Hx. specialize (Hx j G). unfold exited in Hx.
    rewrite Lc in Hx. injection Hx as ->. rewrite table_refs_empty in Rc. discriminate. }
  split.
  - unfold kread. rewrite L. destruct (default [] _); [rewrite Hw|]; simpl; discriminate.
  - eapply read_to_end_drains; eauto.
Qed.

(** C7: the atomic strategy ([unix.rs]) and the duplicate-then-close
    strategy ([windows.rs]) meet the same contract for every operation, and
    [sys] is chosen from the build target alone. *)
Theorem strategies_meet_same_contract :
  pipe_contract Unix.pipe /\ pipe_contract Windows.pipe /\
  (forall k, stdio_contract k (Unix.parent_std k) /\ stdio_contract k (Windows.parent_std k)) /\
  (forall file, Unix.stdio_from_file file = Windows.stdio_from_file file) /\
  (forall t, sys t = if cfg_windows t then Windows.sys else Unix.sys) /\
  (forall t, pipe_contract (pipe t)).
Proof.
  split; [intros s r s' E; split; [exact (unix_pipe_post s r s' E)|exact (unix_pipe_kept s r s' E)]|].
  split; [intros s r s' E; split; [exact (windows_pipe_post s r s' E)|exact (windows_pipe_kept s r s' E)]|].
  split; [intros k; split; intros s r s';
          [apply unix_parent_std_post|apply windows_parent_std_post]|].
  split; [done|]. split; [done|].
  intros t s r s' E. split; [apply (sys_pipe_post t); exact E|].
  unfold pipe, sys in E. destruct (cfg_windows t);
    [apply windows_pipe_kept in E|apply unix_pipe_kept in E]; exact E.
Qed.

(** C9: [parent_stdout] and [parent_stderr] add a new duplicate and leave
    every other handle, the stream's own included, as it was; handing the
    duplicate to a child (on any slot, e.g. the child's stdout onto the
    parent's stderr) gives the child the parent's stream, and afterwards
    the parent's handle table is exactly what it was before the call. *)
Theorem parent_stream_dup_leaves_parent_alone (t : Target) k s st s1 j i s2 :
  k = 1 \/ k = 2 ->
  parent_stream t k s = (Ok st, s1) ->
  spawn [(j, st)] s1 = (Ok i, s2) ->
  (forall h, h <> stdio_fd st -> os_handles s1 !! h = os_handles s !! h) /\
  os_handles s2 = os_handles s /\
  exists e c, os_handles s !! k = Some e /\ os_children s2 !! i = Some c /\
    c !! j = Some (mkEntry (e_obj e) true).
Proof.
  intros Hk E1 E2.
  apply parent_stream_post in E1 as ([C1 _] & _ & _ & _ & e & Lk & N & H1); [|lia].
  assert (Rv : resolve (os_handles s1) [(j, st)] = Some [(j, e_obj e)])
    by (simpl; rewrite H1, lookup_insert_eq; done).
  unfold spawn in E2. rewrite Rv in E2. cbn [map snd] in E2.
  destruct (close_all [stdio_fd st] _) as [u s3] eqn:K. injection E2 as <- <-.
  apply close_all_one in K as [H3 [C3 _]]. simpl in H3, C3.
  split; [intros h Hh; rewrite H1, lookup_insert_ne by congruence; done|].
  split; [rewrite H3, H1; apply delete_insert_id; done|].
  exists e, (child_table (os_handles s1) [(j, e_obj e)]). split; [done|]. split.
  - rewrite C3. apply list_lookup_middle. done.
  - rewrite child_table_lookup. simpl. destruct (Nat.eq_dec j j); done.
Qed.

Lemma acquired_handles_not_inheritable_witness :
  (os_handles (snd (pipe unix_target (os0 []))) !! 3 =
     Some (mkEntry (PipeRead 0) false) /\
   os_handles (snd (pipe unix_target (os0 []))) !! 4 =
     Some (mkEntry (PipeWrite 0) false) /\
   exists c, os_children (snd (spawn inherit_rds
                (snd (run inherit_ops (snd (pipe unix_target (os0 []))))))) !! 1 = Some c /\
     table_refs c (PipeWrite 0) = false) /\
  ((exists o, os_handles (snd (parent_stream unix_target 2 (os0 []))) !! 3 =
     Some (mkEntry o false)) /\
   (forall objs, child_table (os_handles (snd (parent_stream unix_target 2 (os0 [])))) objs =
                 child_table (os_handles (os0 [])) objs) /\
   exists c, os_children (snd (spawn std_dup_rds
                (snd (run std_dup_ops (snd (parent_stream unix_target 2 (os0 []))))))) !! 0 =
               Some c /\ c !! 3 = None).
Proof.
  split.
  - apply (proj1 (acquired_handles_not_inheritable unix_target) (os0 [])
             (mkPair (mkFile 3) (mkFile 4)) (snd (pipe unix_target (os0 [])))
             inherit_ops (snd (run inherit_ops (snd (pipe unix_target (os0 [])))))
             inherit_rds 1
             (snd (spawn inherit_rds
                (snd (run inherit_ops (snd (pipe unix_target (os0 [])))))))
             (PipeWrite 0));
      try (vm_compute; reflexivity).
    + right. reflexivity.
    + intros k st e I L. apply elem_of_cons in I as [I|I]; [|apply elem_of_nil in I; done].
      injection I as -> ->.
      vm_compute in L. injection L as <-. discriminate.
  - apply (proj2 (acquired_handles_not_inheritable unix_target) 2 (os0 []) (mkStdio 3)
             (snd (parent_stream unix_target 2 (os0 []))) std_dup_ops
             (snd (run std_dup_ops (snd (parent_stream unix_target 2 (os0 [])))))
             std_dup_rds 0
             (snd (spawn std_dup_rds
                (snd (run std_dup_ops (snd (parent_stream unix_target 2 (os0 []))))))));
      try (vm_compute; reflexivity); try lia.
    intros j st' I. apply elem_of_cons in I as [I|I]; [|apply elem_of_nil in I; done].
    injection I as -> ->. simpl. lia.
Defined.

Lemma pipe_carries_bytes_in_order_witness :
  exists rest s4,
    read_to_end 5 1 (S (length (written fifo_acts)))
      (snd (drop_file (mkFile 6) (snd (transfer 5 6 fifo_acts
         (snd (pipe windows_target (os0 []))))))) = (Some (Done (Ok rest)), s4) /\
    fst (transfer 5 6 fifo_acts (snd (pipe windows_target (os0 [])))) ++ rest =
      written fifo_acts.
Proof.
  apply (pipe_carries_bytes_in_order windows_target (os0 []) (mkPair (mkFile 5) (mkFile 6))
           (snd (pipe windows_target (os0 []))) fifo_acts
           (fst (transfer 5 6 fifo_acts (snd (pipe windows_target (os0 [])))))
           (snd (transfer 5 6 fifo_acts (snd (pipe windows_target (os0 []))))) tt);
    first [vm_compute; reflexivity | lia].
Defined.

Lemma failed_acquisition_leaks_nothing_witness :
  (os_handles (snd (pipe windows_target (os0 [None; None; Some 24%Z; Some 5%Z]))) =
     os_handles (os0 []) /\
   os_children (snd (pipe windows_target (os0 [None; None; Some 24%Z; Some 5%Z]))) = [] /\
   exists tr, os_trace (snd (pipe windows_target (os0 [None; None; Some 24%Z; Some 5%Z]))) =
     [] ++ tr /\ first_failure tr = Some 24%Z) /\
  (os_handles (snd (parent_stream unix_target 1 (os0 [Some 9%Z]))) = os_handles (os0 []) /\
   os_children (snd (parent_stream unix_target 1 (os0 [Some 9%Z]))) = [] /\
   exists tr, os_trace (snd (parent_stream unix_target 1 (os0 [Some 9%Z]))) = [] ++ tr /\
     first_failure tr = Some 9%Z).
Proof.
  split.
  - apply (proj1 (failed_acquisition_leaks_nothing windows_target)
             (os0 [None; None; Some 24%Z; Some 5%Z]) (mkError 24)).
    vm_compute. reflexivity.
  - apply (proj2 (failed_acquisition_leaks_nothing unix_target) 1 (os0 [Some 9%Z]) (mkError 9));
      [lia|vm_compute; reflexivity].
Defined.

Lemma pipe_pair_distinct_endpoints_witness :
  3 <> 4 /\ os_handles (os0 []) !! 3 = None /\ os_handles (os0 []) !! 4 = None /\
  is_Some (os_handles (snd (pipe unix_target (os0 []))) !! 3) /\
  is_Some (os_handles (snd (pipe unix_target (os0 []))) !! 4).
Proof.
  apply (pipe_pair_distinct_endpoints unix_target (os0 []) (mkPair (mkFile 3) (mkFile 4))).
  vm_compute. reflexivity.
Defined.

Lemma stdio_from_file_moves_handle_witness :
  owners 3 [VFile (mkFile 3); VFile (mkFile 4)] = 1 /\
  exists vs', call_stdio_from_file unix_target 0 [VFile (mkFile 3); VFile (mkFile 4)] = Some vs' /\
    VStdio (mkStdio 3) ∈ vs' /\
    (forall g, VFile g ∈ vs' -> file_fd g <> 3) /\
    owners 3 vs' = 1 /\
    forall is s vs2 s', drop_seq is vs' s = (Some vs2, s') ->
      exists tr, os_trace s' = os_trace s ++ tr /\ closes 3 tr + owners 3 vs2 = 1.
Proof.
  split; [vm_compute; reflexivity|].
  apply (stdio_from_file_moves_handle unix_target [VFile (mkFile 3); VFile (mkFile 4)] 0 (mkFile 3));
    vm_compute; reflexivity.
Defined.

Lemma reader_gets_eof_once_writers_closed_witness :
  fst (kread 3 2 (snd (run eof_ops (snd (pipe unix_target (os0 [])))))) <> Blocked /\
  exists s3,
    read_to_end 3 2 (S (length (default []
      (os_pipes (snd (run eof_ops (snd (pipe unix_target (os0 []))))) !! 0))))
      (snd (run eof_ops (snd (pipe unix_target (os0 []))))) =
    (Some (Done (Ok (default []
      (os_pipes (snd (run eof_ops (snd (pipe unix_target (os0 []))))) !! 0)))), s3).
Proof.
  apply (reader_gets_eof_once_writers_closed unix_target (os0 []) (mkPair (mkFile 3) (mkFile 4))
           (snd (pipe unix_target (os0 []))) eof_ops
           (snd (run eof_ops (snd (pipe unix_target (os0 []))))) 2);
    first [vm_compute; reflexivity | lia | vm_compute; repeat constructor].
Defined.

(** The [swap] helper: a child's stdout redirected onto the parent's
    stderr. *)
Lemma parent_stream_dup_leaves_parent_alone_witness :
  (forall h, h <> 3 -> os_handles (snd (parent_stream windows_target 2 (os0 []))) !! h =
                        os_handles (os0 []) !! h) /\
  os_handles (snd (spawn [(1, mkStdio 3)] (snd (parent_stream windows_target 2 (os0 []))))) =
    os_handles (os0 []) /\
  exists e c, os_handles (os0 []) !! 2 = Some e /\
    os_children (snd (spawn [(1, mkStdio 3)]
                       (snd (parent_stream windows_target 2 (os0 []))))) !! 0 = Some c /\
    c !! 1 = Some (mkEntry (e_obj e) true).
Proof.
  apply (parent_stream_dup_leaves_parent_alone windows_target 2 (os0 []) (mkStdio 3)
           (snd (parent_stream windows_target 2 (os0 []))) 1 0);
    [right; reflexivity | vm_compute; reflexivity | vm_compute; reflexivity].
Defined.

(* ------------------------------------------------------------------ *)
(** ** The [test_pipes_are_not_inheritable] test *)

Lemma stdio_from_file_fd t f : stdio_fd (stdio_from_file t f) = file_fd f.
Proof. unfold stdio_from_file, sys. destruct (cfg_windows t); reflexivity. Qed.

Lemma close_all_tables hs s u s' :
  close_all hs s = (u, s') ->
  os_handles s' = foldl (fun t h => delete h t) (os_handles s) hs /\ frame s s' /\
  os_pipes s' = os_pipes s /\ os_next_pipe s' = os_next_pipe s.
Proof.
  revert s. induction hs as [|h rest IH]; intros s; simpl; unfold bind, ret.
  - intros [= <- <-]. split; [done|]. split; [apply frame_refl|done].
  - destruct (kclose h s) as [x s1] eqn:E.
    apply kclose_spec in E as (F1 & P1 & N1 & H1 & _).
    intros R. destruct (IH s1 R) as (H2 & F2 & P2 & N2). rewrite H2, H1.
    split; [done|]. split; [eapply frame_trans; eauto|]. split; congruence.
Qed.




Lemma insert_last {A} (l : list A) x y : <[length l := x]> (l ++ [y]) = l ++ [x].
Proof.
  pose proof (insert_app_r l [y] 0 x) as E. rewrite Nat.add_0_r in E. rewrite E. done.
Qed.

(** The state after the spawn of [test_pipes_are_not_inheritable]. *)
Lemma inherit_test_setup_spec t s ip op i s' :
  wf s = true -> inherit_test_setup t s = (Ok (ip, op, i), s') ->
  let p := os_next_pipe s in
  os_handles s !! file_fd (write ip) = None /\ os_handles s !! file_fd (read op) = None /\
  file_fd (write ip) <> file_fd (read op) /\
  os_handles s' = <[file_fd (read op) := mkEntry (PipeRead (S p)) false]>
                    (<[file_fd (write ip) := mkEntry (PipeWrite p) false]> (os_handles s)) /\
  (exists c, os_children s' = os_children s ++ [c] /\ i = length (os_children s) /\
     c !! 0 = Some (mkEntry (PipeRead p) true) /\
     c !! 1 = Some (mkEntry (PipeWrite (S p)) true) /\
     table_refs c (PipeWrite p) = false /\ table_refs c (PipeRead (S p)) = false) /\
  os_pipes s' = <[S p := []]> (<[p := []]> (os_pipes s)) /\
  os_next_pipe s' = S (S p) /\ os_streams s' = os_streams s.
Proof.
  intros W. unfold inherit_test_setup, bind, ret.
  destruct (pipe t s) as [[ip'|e1] s1] eqn:P1; [|discriminate].
  destruct (pipe t s1) as [[op'|e2] s2] eqn:P2; [|discriminate].
  destruct (spawn _ s2) as [[i'|e3] s3] eqn:P3; [|discriminate].
  intros [= -> -> -> ->].
  apply sys_pipe_post in P1 as ([C1 S1] & _ & Nr1 & Nw1 & D1 & H1 & Pp1 & Np1).
  apply sys_pipe_post in P2 as ([C2 S2] & _ & Nr2 & Nw2 & D2 & H2 & Pp2 & Np2).
  rewrite Np1 in H2, Pp2, Np2.
  set (p := os_next_pipe s).
  set (r1 := file_fd (read ip)) in *. set (w1 := file_fd (write ip)) in *.
  set (r2 := file_fd (read op)) in *. set (w2 := file_fd (write op)) in *.
  rewrite H1 in Nr2, Nw2.
  apply lookup_insert_None in Nr2 as [Nr2 Ew1r2].
  apply lookup_insert_None in Nr2 as [Nr2 Er1r2].
  apply lookup_insert_None in Nw2 as [Nw2 Ew1w2].
  apply lookup_insert_None in Nw2 as [Nw2 Er1w2].
  set (objs := [(0, PipeRead p); (1, PipeWrite (S p))]).
  assert (Rv : resolve (os_handles s2) [(0, stdio_from_file t (read ip)); (1, stdio_from_file t (write op))] =
               Some objs).
  { simpl. rewrite !stdio_from_file_fd. fold r1 w2. rewrite H2, H1.
    rewrite (lookup_insert_ne _ w2 r1) by congruence.
    rewrite (lookup_insert_ne _ r2 r1) by congruence.
    rewrite (lookup_insert_ne _ w1 r1) by congruence.
    rewrite !lookup_insert_eq. done. }
  unfold spawn in P3. rewrite Rv in P3.
  destruct (close_all _ _) as [u s4] eqn:K. injection P3 as <- <-.
  apply close_all_tables in K as (H4 & [C4 S4] & P4 & N4). simpl in H4, C4, S4, P4, N4.
  rewrite !stdio_from_file_fd in H4. fold r1 w2 in H4.
  assert (NIw : noinh (os_handles s2) (PipeWrite p)).
  { intros h e L E. rewrite H2, H1, !lookup_insert in L.
    repeat case_decide; simplify_eq; try done.
    destruct (wf_handles_no_ref s h e p W L); [lia|done]. }
  assert (NIr : noinh (os_handles s2) (PipeRead (S p))).
  { intros h e L E. rewrite H2, H1, !lookup_insert in L.
    repeat case_decide; simplify_eq; try done.
    destruct (wf_handles_no_ref s h e (S p) W L); [lia|done]. }
  split; [exact Nw1|]. split; [exact Nr2|]. split; [congruence|]. split.
  { rewrite H4. rewrite H2, H1.
    apply map_eq. intros x. rewrite ?lookup_delete, ?lookup_insert.
    repeat case_decide; subst; try congruence; reflexivity. }
  split.
  { exists (child_table (os_handles s2) objs). split; [rewrite C4, C2, C1; done|].
    split; [rewrite C2, C1; done|].
    split; [rewrite child_table_lookup; done|].
    split; [rewrite child_table_lookup; done|].
    split; [apply (child_table_no_ref _ _ _ _ NIw Rv)|apply (child_table_no_ref _ _ _ _ NIr Rv)];
      intros k st e I L; rewrite !elem_of_cons, elem_of_nil in I;
      destruct I as [[= -> ->]|[[= -> ->]|[]]];
      rewrite stdio_from_file_fd in L; rewrite H2, H1 in L;
      rewrite ?(lookup_insert_ne _ w2 r1), ?(lookup_insert_ne _ r2 r1),
              ?(lookup_insert_ne _ w1 r1), !lookup_insert_eq in L by congruence;
      injection L as <-; simpl; intros [=]; lia. }
  split; [rewrite P4, Pp2, Pp1; done|]. split; [rewrite N4; done|].
  rewrite S4, S2, S1. done.
Qed.

(** X1 ([test_pipes_are_not_inheritable], up to the spawn): once the
    [Command] has taken the child's ends, the parent holds exactly the
    write end of the input pipe and the read end of the output pipe,
    both non-inheritable; the child holds the input pipe's read end as its
    stdin and the output pipe's write end as its stdout, and neither of
    the two other ends. *)
Theorem inherit_test_parent_keeps_other_ends (t : Target) s ip op i s' :
  wf s = true -> inherit_test_setup t s = (Ok (ip, op, i), s') ->
  let p := os_next_pipe s in
  os_handles s' = <[file_fd (read op) := mkEntry (PipeRead (S p)) false]>
                    (<[file_fd (write ip) := mkEntry (PipeWrite p) false]> (os_handles s)) /\
  exists c, os_children s' !! i = Some c /\
    c !! 0 = Some (mkEntry (PipeRead p) true) /\
    c !! 1 = Some (mkEntry (PipeWrite (S p)) true) /\
    table_refs c (PipeWrite p) = false /\ table_refs c (PipeRead (S p)) = false.
Proof.
  intros W E. apply inherit_test_setup_spec in E as (_ & _ & _ & H & (c & C & -> & R) & _);
    [|exact W].
  split; [exact H|]. exists c. split; [|exact R].
  rewrite C. apply list_lookup_middle. done.
Qed.

(** X2 ([test_pipes_are_not_inheritable], after the spawn): writing
    [data] to the input pipe succeeds because the child holds its read
    end; once the parent drops the input pipe's write end, the input pipe
    holds exactly [data] and no process can write to it, so the child's
    stdin reaches end-of-stream; and once the child exits, no process can
    write to the output pipe, so the parent's read of it never blocks. *)
Theorem inherit_test_reads_terminate (t : Target) s ip op i s1 data n :
  wf s = true -> inherit_test_setup t s = (Ok (ip, op, i), s1) ->
  let p := os_next_pipe s in
  exists s2, inherit_test_feed ip data s1 = (Ok tt, s2) /\
    os_pipes s2 !! p = Some data /\ held s2 (PipeWrite p) = false /\
    held (snd (step (OpExit i) s2)) (PipeWrite (S p)) = false /\
    fst (kread (file_fd (read op)) n (snd (step (OpExit i) s2))) <> Blocked.
Proof.
  intros W E. apply inherit_test_setup_spec in E
    as (Nw & Nr & D & H1 & (c & C1 & -> & L0 & L1 & Rw & Rr) & P1 & N1 & _); [|exact W].
  unfold inherit_test_feed, bind, kwrite.
  set (p := os_next_pipe s) in *.
  set (w1 := file_fd (write ip)) in *. set (r2 := file_fd (read op)) in *.
  assert (Lw : os_handles s1 !! w1 = Some (mkEntry (PipeWrite p) false))
    by (rewrite H1, lookup_insert_ne, lookup_insert_eq by congruence; done).
  assert (Hr : held s1 (PipeRead p) = true).
  { unfold held. rewrite C1, existsb_app. simpl.
    rewrite (table_refs_true c 0 _ (PipeRead p) L0 eq_refl).
    rewrite !orb_true_r. done. }
  rewrite Lw, Hr, P1, (lookup_insert_ne _ (S p) p) by lia. rewrite lookup_insert_eq.
  cbv beta iota zeta. cbn [default app].
  unfold drop_file, bind, ret.
  match goal with |- context [kclose ?h ?st] => destruct (kclose h st) as [x s3] eqn:K end.
  apply kclose_spec in K as ([C3 _] & P3 & _ & H3 & _). simpl in C3, P3, H3.
  exists s3. split; [reflexivity|].
  set (s4 := snd (step (OpExit (length (os_children s))) s3)).
  assert (E3 : os_handles s4 = os_handles s3) by reflexivity.
  assert (C4 : os_children s4 = os_children s ++ [∅])
    by (unfold s4; simpl; rewrite C3, C1; apply insert_last).
  assert (Hw : held s4 (PipeWrite (S p)) = false).
  { apply held_false.
    - rewrite E3, H3, H1. intros h e L.
      rewrite lookup_delete, !lookup_insert in L.
      repeat case_decide; simplify_eq; try (simpl; intros [=]; done).
      destruct (wf_handles_no_ref s h e (S p) W L); [lia|done].
    - rewrite C4. intros c' I. apply elem_of_app in I as [I|I].
      + apply (wf_children_no_ref s c' (S p) W I). lia.
      + apply elem_of_cons in I as [->|I]; [apply table_refs_empty|apply elem_of_nil in I; done]. }
  split; [rewrite P3, lookup_insert_eq; done|].
  split.
  { apply held_false.
    - rewrite H3, H1. intros h e L.
      rewrite lookup_delete, !lookup_insert in L.
      repeat case_decide; simplify_eq; try (simpl; intros [=]; lia).
      destruct (wf_handles_no_ref s h e p W L); [lia|done].
    - rewrite C3, C1. intros c' I. apply elem_of_app in I as [I|I].
      + apply (wf_children_no_ref s c' p W I). lia.
      + apply elem_of_cons in I as [->|I]; [exact Rw|apply elem_of_nil in I; done]. }
  split; [exact Hw|].
  unfold kread. rewrite E3, H3, H1, lookup_delete_ne, lookup_insert_eq by exact D.
  destruct (default [] _); [rewrite Hw|]; simpl; discriminate.
Qed.

Lemma inherit_test_parent_keeps_other_ends_witness :
  wf (os0 []) = true /\
  inherit_test_setup unix_target (os0 []) =
    (Ok (mkPair (mkFile 3) (mkFile 4), mkPair (mkFile 5) (mkFile 6), 0),
     snd (inherit_test_setup unix_target (os0 []))) /\
  (os_handles (snd (inherit_test_setup unix_target (os0 []))) =
     <[5 := mkEntry (PipeRead 1) false]> (<[4 := mkEntry (PipeWrite 0) false]> std_table) /\
   exists c, os_children (snd (inherit_test_setup unix_target (os0 []))) !! 0 = Some c /\
     c !! 0 = Some (mkEntry (PipeRead 0) true) /\
     c !! 1 = Some (mkEntry (PipeWrite 1) true) /\
     table_refs c (PipeWrite 0) = false /\ table_refs c (PipeRead 1) = false).
Proof.
  split; [vm_compute; reflexivity|]. split; [vm_compute; reflexivity|].
  apply (inherit_test_parent_keeps_other_ends unix_target (os0 [])
           (mkPair (mkFile 3) (mkFile 4)) (mkPair (mkFile 5) (mkFile 6)) 0
           (snd (inherit_test_setup unix_target (os0 []))));
    vm_compute; reflexivity.
Defined.

Lemma inherit_test_reads_terminate_witness :
  wf (os0 []) = true /\
  inherit_test_setup windows_target (os0 []) =
    (Ok (mkPair (mkFile 5) (mkFile 6), mkPair (mkFile 9) (mkFile 10), 0),
     snd (inherit_test_setup windows_target (os0 []))) /\
  exists s2, inherit_test_feed (mkPair (mkFile 5) (mkFile 6)) hello
               (snd (inherit_test_setup windows_target (os0 []))) = (Ok tt, s2) /\
    os_pipes s2 !! 0 = Some hello /\ held s2 (PipeWrite 0) = false /\
    held (snd (step (OpExit 0) s2)) (PipeWrite 1) = false /\
    fst (kread 9 1 (snd (step (OpExit 0) s2))) <> Blocked.
Proof.
  split; [vm_compute; reflexivity|]. split; [vm_compute; reflexivity|].
  apply (inherit_test_reads_terminate windows_target (os0 [])
           (mkPair (mkFile 5) (mkFile 6)) (mkPair (mkFile 9) (mkFile 10)) 0
           (snd (inherit_test_setup windows_target (os0 []))) hello 1);
    vm_compute; reflexivity.
Defined.

(** X3 ([test_parent_handles], up to the spawn): once [pipe] succeeds,
    the rest cannot fail: the write succeeds although only the parent's
    [Stdio] holds the read end, and after the spawn the parent holds no
    handle it did not hold before; the child's stdin is the pipe's read
    end, the pipe holds exactly [data], and no process can write to it, so
    the child reads [data] and then end-of-stream. *)
Theorem parent_handles_test_hands_over_input (t : Target) s pr s1 data :
  wf s = true -> pipe t s = (Ok pr, s1) ->
  let p := os_next_pipe s in
  exists i s', parent_handles_test t data s = (Ok i, s') /\
    os_handles s' = os_handles s /\
    os_pipes s' !! p = Some data /\ held s' (PipeWrite p) = false /\
    exists c, os_children s' !! i = Some c /\ c !! 0 = Some (mkEntry (PipeRead p) true).
Proof.
  intros W P. unfold parent_handles_test, bind. rewrite P.
  apply sys_pipe_post in P as ([C1 _] & _ & Nr & Nw & D & H1 & P1 & _).
  set (p := os_next_pipe s) in *.
  set (r := file_fd (read pr)) in *. set (w := file_fd (write pr)) in *.
  assert (Lw : os_handles s1 !! w = Some (mkEntry (PipeWrite p) false))
    by (rewrite H1, lookup_insert_eq; done).
  assert (Hr : held s1 (PipeRead p) = true).
  { unfold held. rewrite (table_refs_true (os_handles s1) r (mkEntry (PipeRead p) false));
      [done| |done].
    rewrite H1, lookup_insert_ne, lookup_insert_eq by first [exact D | exact (not_eq_sym D)]. done. }
  unfold kwrite at 1. fold w. rewrite Lw, Hr, P1, lookup_insert_eq. simpl.
  unfold drop_file, bind, ret.
  match goal with |- context [kclose ?h ?st] => destruct (kclose h st) as [x s2] eqn:K end.
  apply kclose_spec in K as ([C2 _] & P2 & _ & H2 & _). simpl in C2, P2, H2. fold w in H2.
  assert (Rv : resolve (os_handles s2) [(0, stdio_from_file t (read pr))] =
               Some [(0, PipeRead p)]).
  { simpl. rewrite stdio_from_file_fd. fold r. rewrite H2, lookup_delete_ne by first [exact D | exact (not_eq_sym D)].
    rewrite H1, lookup_insert_ne, lookup_insert_eq by first [exact D | exact (not_eq_sym D)]. done. }
  unfold spawn. rewrite Rv. cbn [map snd]. rewrite stdio_from_file_fd. fold r.
  destruct (close_all [r] _) as [u s3] eqn:K.
  apply close_all_tables in K as (H3 & [C3 _] & P3 & _). simpl in H3, C3, P3.
  rewrite H2 in H3.
  assert (NI : noinh (os_handles s2) (PipeWrite p)).
  { intros h e L E. rewrite H2, lookup_delete, H1, !lookup_insert in L.
    repeat case_decide; simplify_eq; try done.
    destruct (wf_handles_no_ref s h e p W L); [lia|done]. }
  eexists _, _. split; [reflexivity|].
  split.
  { rewrite H3, H1. apply map_eq. intros y. rewrite ?lookup_delete, ?lookup_insert.
    repeat case_decide; subst; try congruence; reflexivity. }
  split; [rewrite P3, P2; simpl; rewrite lookup_insert_eq; done|].
  split.
  { apply held_false.
    - rewrite H3, H1. intros h e L.
      rewrite !lookup_delete, !lookup_insert in L.
      repeat case_decide; simplify_eq; try (simpl; intros [=]; done).
      destruct (wf_handles_no_ref s h e p W L); [lia|done].
    - rewrite C3, C2, C1. intros c I. apply elem_of_app in I as [I|I].
      + apply (wf_children_no_ref s c p W I). lia.
      + apply elem_of_cons in I as [->|I]; [|apply elem_of_nil in I; done].
        apply (child_table_no_ref _ _ _ _ NI Rv).
        intros k st e I' L. apply elem_of_cons in I' as [[= -> ->]|I'];
          [|apply elem_of_nil in I'; done].
        rewrite stdio_from_file_fd, H2, lookup_delete_ne, H1, lookup_insert_ne,
          lookup_insert_eq in L by first [exact D | exact (not_eq_sym D)].
        injection L as <-. simpl. intros [=]. }
  eexists. split; [rewrite C3; apply list_lookup_middle; done|].
  rewrite child_table_lookup. done.
Qed.

Lemma parent_handles_test_hands_over_input_witness :
  wf (os0 []) = true /\
  pipe windows_target (os0 []) =
    (Ok (mkPair (mkFile 5) (mkFile 6)), snd (pipe windows_target (os0 []))) /\
  exists i s', parent_handles_test windows_target quack (os0 []) = (Ok i, s') /\
    os_handles s' = std_table /\
    os_pipes s' !! 0 = Some quack /\ held s' (PipeWrite 0) = false /\
    exists c, os_children s' !! i = Some c /\ c !! 0 = Some (mkEntry (PipeRead 0) true).
Proof.
  split; [vm_compute; reflexivity|]. split; [vm_compute; reflexivity|].
  apply (parent_handles_test_hands_over_input windows_target (os0 [])
           (mkPair (mkFile 5) (mkFile 6)) (snd (pipe windows_target (os0 []))) quack);
    vm_compute; reflexivity.
Defined.
